(** * bikewheelcalc: Rim, Hub, Spoke and BicycleWheel

    A shallow embedding of [bikewheelcalc/bicycle_wheel.py] and the
    properties of its specification.

    Numbers.  Python floats and numpy scalars are modelled by the real
    numbers: rounding, overflow, [inf] and [nan] are not modelled.  A
    division whose divisor is zero has no real value: Python raises
    [ZeroDivisionError] on its own floats and numpy returns [inf] or [nan]
    with a warning; both are the exception [ZeroDivisionError] below, so
    every statement about a returned number is about a run in which all
    numbers are finite.  The one place where rounding is modelled is the
    module [Binary64], which gives the block [k_f] of the two spoke
    matrices in IEEE 754 binary64 arithmetic.

    Objects.  A method that can raise returns a [result]; a method of
    [BicycleWheel], which reads and mutates the wheel and its spokes, is a
    function from the state before the call to a result and the state
    after it.  The state is kept when an exception is raised, as Python
    keeps it.  Spoke objects live in a store and the wheel's list holds
    their identities, so that two slots of the list may hold one object. *)

From Stdlib Require Import Reals Lra Psatz ZArith Sorted.
From Stdlib Require PrimFloat.
From stdpp Require Import base option strings list gmap.

Local Open Scope R_scope.

(** ** Python values, exceptions and results *)

Inductive exn : Type :=
| AttributeError (attr : string)
| NameError (name : string)
| UnboundLocalError (name : string)
| IndexError
| TypeError
| ValueError (msg : string)
| ZeroDivisionError.

Inductive result (A : Type) : Type :=
| Ok (a : A)
| Raise (e : exn).

Arguments Ok {A} a.
Arguments Raise {A} e.

#[global] Instance result_ret : MRet result := fun A a => Ok a.

#[global] Instance result_bind : MBind result := fun A B f m =>
  match m with
  | Ok a => f a
  | Raise e => Raise e
  end.

(** An argument that the code inspects with [is None] or [isinstance]. *)
Inductive pyval : Type :=
| PyNone
| PyFloat (x : R)
| PyInt (z : Z).

Definition is_None (v : pyval) : bool :=
  match v with PyNone => true | _ => false end.

(** [isinstance(v, float)] *)
Definition isinstance_float (v : pyval) : bool :=
  match v with PyFloat _ => true | _ => false end.

(** The number a value stands for in arithmetic; [None] is a [TypeError]. *)
Definition as_number (v : pyval) : result R :=
  match v with
  | PyFloat x => Ok x
  | PyInt z => Ok (IZR z)
  | PyNone => Raise TypeError
  end.

(** [x / y] *)
Definition truediv (x y : R) : result R :=
  if Req_dec_T y 0 then Raise ZeroDivisionError else Ok (x / y).

(** [l[i]] for a list or array of numbers [l] and an index [i >= 0] *)
Definition getitem (l : list R) (i : nat) : result R :=
  match l !! i with
  | Some x => Ok x
  | None => Raise IndexError
  end.

(** Reading a local variable of a function.  Every name assigned in the
    body of a Python function is a local slot of its frame, unbound until
    the first assignment. *)
Definition load_fast (name : string) (slot : option R) : result R :=
  match slot with
  | Some v => Ok v
  | None => Raise (UnboundLocalError name)
  end.

(** The names bound at module level: two imports and four classes. *)
Definition module_globals : list string :=
  ["np"; "warn"; "Rim"; "Hub"; "Spoke"; "BicycleWheel"].

(** Reading, as a number, a name that is neither a parameter nor assigned
    in the function: it is looked up in the module (no builtin is a
    number either). *)
Definition load_global (name : string) : result R :=
  if bool_decide (name ∈ module_globals)
  then Raise TypeError
  else Raise (NameError name).

(** ** Fixed-size arrays *)

Definition vec3 : Type := R * R * R.
Definition mat3 : Type := vec3 * vec3 * vec3.

(** A 4x4 array, read as [k i j] for [k[i, j]]. *)
Definition mat4 : Type := nat -> nat -> R.

(** [v[i]] *)
Definition item (v : vec3) (i : nat) : R :=
  let '(v0, v1, v2) := v in
  match i with
  | O => v0
  | S O => v1
  | _ => v2
  end.

(** [m[i, j]] *)
Definition item2 (m : mat3) (i j : nat) : R :=
  let '(r0, r1, r2) := m in
  match i with
  | O => item r0 j
  | S O => item r1 j
  | _ => item r2 j
  end.

Definition e3 : vec3 := (0, 0, 1).

(** [np.outer(u, v)] *)
Definition outer (u v : vec3) : mat3 :=
  let '(u0, u1, u2) := u in
  let '(v0, v1, v2) := v in
  ((u0 * v0, u0 * v1, u0 * v2),
   (u1 * v0, u1 * v1, u1 * v2),
   (u2 * v0, u2 * v1, u2 * v2)).

(** [np.eye(3)] *)
Definition eye3 : mat3 := ((1, 0, 0), (0, 1, 0), (0, 0, 1)).

Definition vscale (c : R) (v : vec3) : vec3 :=
  let '(v0, v1, v2) := v in (c * v0, c * v1, c * v2).

Definition vadd (u v : vec3) : vec3 :=
  let '(u0, u1, u2) := u in
  let '(v0, v1, v2) := v in (u0 + v0, u1 + v1, u2 + v2).

Definition vsub (u v : vec3) : vec3 :=
  let '(u0, u1, u2) := u in
  let '(v0, v1, v2) := v in (u0 - v0, u1 - v1, u2 - v2).

Definition mscale (c : R) (m : mat3) : mat3 :=
  let '(r0, r1, r2) := m in (vscale c r0, vscale c r1, vscale c r2).

Definition madd (a b : mat3) : mat3 :=
  let '(a0, a1, a2) := a in
  let '(b0, b1, b2) := b in (vadd a0 b0, vadd a1 b1, vadd a2 b2).

Definition msub (a b : mat3) : mat3 :=
  let '(a0, a1, a2) := a in
  let '(b0, b1, b2) := b in (vsub a0 b0, vsub a1 b1, vsub a2 b2).

(** [u.dot(v)] *)
Definition vdot (u v : vec3) : R :=
  let '(u0, u1, u2) := u in
  let '(v0, v1, v2) := v in u0 * v0 + u1 * v1 + u2 * v2.

(** [m.dot(v)], [v] a column *)
Definition mdot (m : mat3) (v : vec3) : vec3 :=
  let '(r0, r1, r2) := m in (vdot r0 v, vdot r1 v, vdot r2 v).

(** [v.dot(m)], [v] a row *)
Definition vdotm (v : vec3) (m : mat3) : vec3 :=
  let '(v0, v1, v2) := v in
  let '(r0, r1, r2) := m in
  vadd (vscale v0 r0) (vadd (vscale v1 r1) (vscale v2 r2)).

(** [np.cross(u, v)] *)
Definition cross (u v : vec3) : vec3 :=
  let '(u0, u1, u2) := u in
  let '(v0, v1, v2) := v in
  (u1 * v2 - u2 * v1, u2 * v0 - u0 * v2, u0 * v1 - u1 * v0).

(** [np.zeros((4, 4))] *)
Definition zeros44 : mat4 := fun _ _ => 0.

(** [k[0:3, 0:3] = m] *)
Definition set_block33 (k : mat4) (m : mat3) : mat4 := fun i j =>
  if (i <? 3)%nat && (j <? 3)%nat then item2 m i j else k i j.

(** [k[0:3, 3] = v] *)
Definition set_col3 (k : mat4) (v : vec3) : mat4 := fun i j =>
  if (i <? 3)%nat && (j =? 3)%nat then item v i else k i j.

(** [k[3, 0:3] = v] *)
Definition set_row3 (k : mat4) (v : vec3) : mat4 := fun i j =>
  if (i =? 3)%nat && (j <? 3)%nat then item v j else k i j.

(** [k[3, 3] = x] *)
Definition set_33 (k : mat4) (x : R) : mat4 := fun i j =>
  if (i =? 3)%nat && (j =? 3)%nat then x else k i j.

(** The quadratic form [x^T k x] of a 4x4 array, [x = (x 0, ..., x 3)]. *)
Definition sum4 (f : nat -> R) : R := f 0%nat + f 1%nat + f 2%nat + f 3%nat.

Definition quad4 (k : mat4) (x : nat -> R) : R :=
  sum4 (fun i => sum4 (fun j => x i * k i j * x j)).

Definition symmetric4 (k : mat4) : Prop :=
  forall i j : nat, (i < 4)%nat -> (j < 4)%nat -> k i j = k j i.

Definition psd4 (k : mat4) : Prop :=
  forall x : nat -> R, 0 <= quad4 k x.

(** ** class Rim *)

Module Rim.

(** A value of [sec_params]. *)
Inductive param : Type :=
| PBool (flag : bool)
| PNum (x : R).

Record instance : Type := init {
  radius : R;
  area : R;
  I_rad : R;
  I_lat : R;
  J_tor : R;
  I_warp : R;
  young_mod : R;
  shear_mod : R;
  density : option R;
  sec_type : string;
  sec_params : gmap string param
}.

Definition general (radius area I_rad I_lat J_tor I_warp young_mod shear_mod : R)
    (density : option R) : instance :=
  init radius area I_rad I_lat J_tor I_warp young_mod shear_mod density
       "general" ∅.

(** [box] assigns [I_warp] on line 58, so [I_warp] is a local of its frame;
    it is not a parameter, so its slot is unbound when line 58 reads it. *)
Definition box (radius w h t young_mod shear_mod : R) (density : option R)
    : result instance :=
  let I_warp_slot : option R := None in
  let area := 2 * (w + t / 2) * t + 2 * (h - t / 2) * t in
  J_tor ← truediv (2 * t * (w * h) ^ 2) (w + h);
  let I_rad := 2 * (t * (h + t) ^ 3) / 12
               + 2 * ((w - t) * t ^ 3 / 12 + (w - t) * t * (h / 2) ^ 2) in
  let I_lat := 2 * (t * (w + t) ^ 3) / 12
               + 2 * ((h - t) * t ^ 3 / 12 + (h - t) * t * (w / 2) ^ 2) in
  I_warp ← load_fast "I_warp" I_warp_slot;
  mret (init radius area I_rad I_lat J_tor I_warp young_mod shear_mod density
             "box"
             (<["closed" := PBool true]>
                (<["w" := PNum w]> (<["h" := PNum h]> {["t" := PNum t]})))).

Definition C_channel (radius w h t young_mod shear_mod : R) (density : option R)
    : result instance :=
  let area := (w + t) * t + 2 * (h - t) * t in
  let J_tor := 1 / 3 * t ^ 3 * (w + 2 * (h - t)) in
  I_warp ← truediv (t * h ^ 3 * w ^ 2 / 12 * (3 * h + 2 * w)) (6 * h + w);
  y_c ← truediv ((h - t) * t * h) area;
  let I_rad := (w + t) * t ^ 3 / 12 + (w + t) * t * y_c ^ 2
               + 2 * (t * (h - t) ^ 3 / 12 + (h - t) * t * (h / 2 - y_c) ^ 2) in
  let I_lat := t * w ^ 3 / 12
               + 2 * ((h - t) * t ^ 3 / 12 + (h - t) * t * (w / 2) ^ 2) in
  y_s ← truediv (-3 * h ^ 2) (6 * h + w);
  mret (init radius area I_rad I_lat J_tor I_warp young_mod shear_mod density
             "C"
             (<["closed" := PBool false]>
                (<["w" := PNum w]>
                   (<["h" := PNum h]>
                      (<["t" := PNum t]>
                         (<["y_c" := PNum y_c]>
                            (<["y_s" := PNum y_s]>
                               {["y_0" := PNum (y_c - y_s)]}))))))).

(** [None] is Python's [None]: the density is not set. *)
Definition calc_mass (self : instance) : option R :=
  match density self with
  | Some d => Some (d * 2 * PI * radius self * area self)
  | None => None
  end.

Definition calc_rot_inertia (self : instance) : option R :=
  match density self with
  | Some _ => m ← calc_mass self; Some (m * radius self ^ 2)
  | None => None
  end.

End Rim.

(** ** class Hub *)

Module Hub.

Record instance : Type := mk {
  diameter_nds : pyval;
  diameter_ds : pyval;
  width_nds : R;
  width_ds : R
}.

Definition msg_ambiguous : string :=
  "Cannot specify width_left or width_right when using the offset parameter.".

Definition msg_incomplete : string :=
  "width_left and width_right must both be defined if not using the width parameter.".

(** [Hub.__init__]; an argument left out is [PyNone]. *)
Definition init (diameter diameter_nds diameter_ds
                 width width_nds width_ds offset : pyval) : result instance :=
  let self_diameter_nds :=
    if isinstance_float diameter_nds then diameter_nds else diameter in
  let self_diameter_ds :=
    if isinstance_float diameter_ds then diameter_ds else diameter in
  match width with
  | PyFloat w =>
      let offset := if is_None offset then PyFloat 0 else offset in
      o ← as_number offset;
      let self_width_nds := w / 2 + o in
      let self_width_ds := w / 2 - o in
      if negb (is_None width_nds) || negb (is_None width_ds)
      then Raise (ValueError msg_ambiguous)
      else mret (mk self_diameter_nds self_diameter_ds
                    self_width_nds self_width_ds)
  | _ =>
      match width_nds, width_ds with
      | PyFloat wn, PyFloat wd =>
          mret (mk self_diameter_nds self_diameter_ds wn wd)
      | _, _ => Raise (ValueError msg_incomplete)
      end
  end.

End Hub.

(** ** class Spoke *)

Module Spoke.

Record instance : Type := mk {
  theta : R;
  n : vec3;
  b : vec3;
  length : R;
  diameter : R;
  young_mod : R;
  density : option R;
  tension : R;
  EA : R
}.

(** [Spoke.__init__] *)
Definition init (theta : R) (n b : vec3) (length diameter young_mod : R)
    (density : option R) : instance :=
  mk theta n b length diameter young_mod density
     0 (PI / 4 * diameter ^ 2 * young_mod).

(** [self.tension = T] *)
Definition set_tension (self : instance) (T : R) : instance :=
  mk (theta self) (n self) (b self) (length self) (diameter self)
     (young_mod self) (density self) T (EA self).

(** The four slice assignments that fill [k]. *)
Definition assemble (k_f : mat3) (dFdphi : vec3) (dTdphi : R) : mat4 :=
  let k := zeros44 in
  let k := set_block33 k k_f in
  let k := set_col3 k dFdphi in
  let k := set_row3 k dFdphi in
  let k := set_33 k dTdphi in
  k.

Definition calc_k (self : instance) (with_tension : bool) : result mat4 :=
  let n := n self in
  K_e ← truediv (EA self) (length self);
  K_t ← (if with_tension then truediv (tension self) (length self)
         else mret 0);
  let k_f := madd (mscale K_e (outer n n))
                  (mscale K_t (msub eye3 (outer n n))) in
  let dFdphi := mdot k_f (cross e3 (b self)) in
  let dTdphi := vdot (vdotm (cross (b self) e3) k_f) (cross (b self) e3) in
  mret (assemble k_f dFdphi dTdphi).

Definition calc_k_geom (self : instance) : result mat4 :=
  let n := n self in
  c ← truediv 1 (length self);
  let k_f := mscale c (msub eye3 (outer n n)) in
  let dFdphi := mdot k_f (cross e3 (b self)) in
  let dTdphi := vdot (vdotm (cross (b self) e3) k_f) (cross (b self) e3) in
  mret (assemble k_f dFdphi dTdphi).

Definition calc_mass (self : instance) : option R :=
  match density self with
  | Some d => Some (d * length self * PI / 4 * diameter self ^ 2)
  | None => None
  end.

Definition calc_rot_inertia (self : instance) : option R :=
  match density self with
  | Some _ =>
      m ← calc_mass self;
      Some (m * (length self * item (n self) 1) ^ 2 / 12)
  | None => None
  end.

(** [calc_tension_change(d, a)]; [a] is 0 when left out. *)
Definition calc_tension_change (self : instance) (d : list R) (a : R)
    : result R :=
  let d := if (List.length d <? 4)%nat then d ++ [0] else d in
  d0 ← getitem d 0;
  d1 ← getitem d 1;
  d2 ← getitem d 2;
  d3 ← getitem d 3;
  let un := vadd (d0, d1, d2) (vscale d3 (cross e3 (b self))) in
  K_e ← truediv (EA self) (length self);
  mret (K_e * (a - vdot (n self) un)).

End Spoke.

(** ** The block [k_f] in binary64

    numpy builds the block [k_f] of [calc_k] and of [calc_k_geom] one
    array element at a time: every [/], [*], [-] and [+] in its expression
    is a single IEEE 754 binary64 operation, rounded to nearest with ties
    to even, which is the primitive float operation of the same name.
    [k[0:3, 0:3] = k_f] copies the block, so that [k[i, j]] is
    [k_f[i, j]] bit for bit when [i] and [j] are below 3.  The last row
    and column of [k] go through [.dot], whose order of summation numpy
    leaves to its BLAS: they are not given in binary64.  A division by
    zero is the exception [ZeroDivisionError], as for the real numbers. *)

Module Binary64.

Import PrimFloat.
Local Open Scope float_scope.

Definition vec3 : Type := float * float * float.
Definition mat3 : Type := vec3 * vec3 * vec3.

(** [v[i]] *)
Definition item (v : vec3) (i : nat) : float :=
  let '(v0, v1, v2) := v in
  match i with
  | O => v0
  | S O => v1
  | _ => v2
  end.

(** [m[i, j]] *)
Definition item2 (m : mat3) (i j : nat) : float :=
  let '(r0, r1, r2) := m in
  match i with
  | O => item r0 j
  | S O => item r1 j
  | _ => item r2 j
  end.

(** [np.outer(u, v)] *)
Definition outer (u v : vec3) : mat3 :=
  let '(u0, u1, u2) := u in
  let '(v0, v1, v2) := v in
  ((u0 * v0, u0 * v1, u0 * v2),
   (u1 * v0, u1 * v1, u1 * v2),
   (u2 * v0, u2 * v1, u2 * v2)).

(** [np.eye(3)] *)
Definition eye3 : mat3 := ((1, 0, 0), (0, 1, 0), (0, 0, 1)).

Definition vscale (c : float) (v : vec3) : vec3 :=
  let '(v0, v1, v2) := v in (c * v0, c * v1, c * v2).

Definition vadd (u v : vec3) : vec3 :=
  let '(u0, u1, u2) := u in
  let '(v0, v1, v2) := v in (u0 + v0, u1 + v1, u2 + v2).

Definition vsub (u v : vec3) : vec3 :=
  let '(u0, u1, u2) := u in
  let '(v0, v1, v2) := v in (u0 - v0, u1 - v1, u2 - v2).

(** [c * m], [a + b] and [a - b] on 3x3 arrays, element by element *)
Definition mscale (c : float) (m : mat3) : mat3 :=
  let '(r0, r1, r2) := m in (vscale c r0, vscale c r1, vscale c r2).

Definition madd (a b : mat3) : mat3 :=
  let '(a0, a1, a2) := a in
  let '(b0, b1, b2) := b in (vadd a0 b0, vadd a1 b1, vadd a2 b2).

Definition msub (a b : mat3) : mat3 :=
  let '(a0, a1, a2) := a in
  let '(b0, b1, b2) := b in (vsub a0 b0, vsub a1 b1, vsub a2 b2).

(** [x / y]; [y =? 0] holds of both zeros. *)
Definition truediv (x y : float) : result float :=
  if y =? 0 then Raise ZeroDivisionError else Ok (x / y).

(** The attributes of a Spoke that [k_f] reads. *)
Record instance : Type := mk {
  n : vec3;
  length : float;
  tension : float;
  EA : float
}.

(** [k_f] of [calc_k(tension)], which is [calc_k(tension)[0:3, 0:3]] *)
Definition k_f (self : instance) (with_tension : bool) : result mat3 :=
  let n := n self in
  K_e ← truediv (EA self) (length self);
  K_t ← (if with_tension then truediv (tension self) (length self)
         else mret 0);
  mret (madd (mscale K_e (outer n n))
             (mscale K_t (msub eye3 (outer n n)))).

(** [k_f] of [calc_k_geom()], which is [calc_k_geom()[0:3, 0:3]] *)
Definition k_f_geom (self : instance) : result mat3 :=
  let n := n self in
  c ← truediv 1 (length self);
  mret (mscale c (msub eye3 (outer n n))).

(** [(calc_k(tension=False) + self.tension * calc_k_geom())[0:3, 0:3]] *)
Definition elastic_plus_geometric (self : instance) : result mat3 :=
  k_0 ← k_f self false;
  k_g ← k_f_geom self;
  mret (madd k_0 (mscale (tension self) k_g)).

End Binary64.

(** ** class BicycleWheel *)

(** The identity of a Spoke object. *)
Definition loc : Type := nat.

(** [range(start, stop, step)] for a positive [step] *)
Fixpoint range_from (fuel start stop step : nat) : list nat :=
  match fuel with
  | O => []
  | S fuel' =>
      if (start <? stop)%nat
      then start :: range_from fuel' (start + step) stop step
      else []
  end.

Definition range3 (start stop step : nat) : list nat :=
  range_from stop start stop step.

(** [range(n)] for an int [n]: empty when [n <= 0] *)
Definition range1 (n : Z) : list Z :=
  Z.of_nat <$> seq 0 (Z.to_nat n).

(** [np.argsort(keys)]: the indices of [keys] in ascending order of key.
    numpy does not fix the order of equal keys; here they keep theirs. *)
Fixpoint argsort_insert (keys : list R) (i : nat) (a : list nat) : list nat :=
  match a with
  | [] => [i]
  | j :: a' =>
      if Rlt_dec (nth j keys 0) (nth i keys 0)
      then j :: argsort_insert keys i a'
      else i :: j :: a'
  end.

Definition argsort (keys : list R) : list nat :=
  foldr (argsort_insert keys) [] (seq 0 (List.length keys)).

Module BicycleWheel.

(** The wheel object: the three attributes [__init__] sets, and whatever
    other number-valued attributes were set on the instance since. *)
Record instance : Type := mk {
  spokes : list loc;
  rim : option Rim.instance;
  hub : option Hub.instance;
  extra : gmap string R
}.

(** [BicycleWheel.__init__] *)
Definition init : instance := mk [] None None ∅.

(** The wheel, the Spoke objects by identity, the next unused identity and
    the warnings issued so far. *)
Record state : Type := mkState {
  self : instance;
  store : loc -> Spoke.instance;
  next_id : loc;
  warnings : list string
}.

Definition M (A : Type) : Type := state -> result A * state.

#[global] Instance M_ret : MRet M := fun A a st => (Ok a, st).

#[global] Instance M_bind : MBind M := fun A B f m st =>
  match m st with
  | (Ok a, st') => f a st'
  | (Raise e, st') => (Raise e, st')
  end.

Definition raise {A : Type} (e : exn) : M A := fun st => (Raise e, st).

Definition lift {A : Type} (r : result A) : M A := fun st => (r, st).

Definition get : M state := fun st => (Ok st, st).

(** [self.spokes = l] *)
Definition set_spokes (l : list loc) : M unit := fun st =>
  (Ok tt,
   mkState (mk l (rim (self st)) (hub (self st)) (extra (self st)))
           (store st) (next_id st) (warnings st)).

(** [self.spokes[i]] *)
Definition spokes_getitem (i : nat) : M loc := fun st =>
  match spokes (self st) !! i with
  | Some r => (Ok r, st)
  | None => (Raise IndexError, st)
  end.

(** The Spoke object with identity [r]. *)
Definition deref (r : loc) : M Spoke.instance := fun st => (Ok (store st r), st).

(** [s.tension = T] for the object [r] *)
Definition store_tension (r : loc) (T : R) : M unit := fun st =>
  (Ok tt,
   mkState (self st)
           (fun r' => if decide (r' = r)
                      then Spoke.set_tension (store st r) T
                      else store st r')
           (next_id st) (warnings st)).

(** [self.spokes.append(s)] for a newly constructed [s] *)
Definition append_new (s : Spoke.instance) : M unit := fun st =>
  let r := next_id st in
  (Ok tt,
   mkState (mk (spokes (self st) ++ [r])
               (rim (self st)) (hub (self st)) (extra (self st)))
           (fun r' => if decide (r' = r) then s else store st r')
           (S r) (warnings st)).

(** [warn(msg)] *)
Definition warn (msg : string) : M unit := fun st =>
  (Ok tt, mkState (self st) (store st) (next_id st) (warnings st ++ [msg])).

(** [self.rim], about to be read for [attr]; [None] has no attribute. *)
Definition self_rim (attr : string) : M Rim.instance := fun st =>
  match rim (self st) with
  | Some r => (Ok r, st)
  | None => (Raise (AttributeError attr), st)
  end.

(** [self.hub], about to be read for [attr] *)
Definition self_hub (attr : string) : M Hub.instance := fun st =>
  match hub (self st) with
  | Some h => (Ok h, st)
  | None => (Raise (AttributeError attr), st)
  end.

(** [self.<attr>] for an attribute that [__init__] does not set *)
Definition getattr (attr : string) : M R := fun st =>
  match extra (self st) !! attr with
  | Some x => (Ok x, st)
  | None => (Raise (AttributeError attr), st)
  end.

(** [for x in l: acc = body(x, acc)] *)
Fixpoint for_loop {A S : Type} (l : list A) (body : A -> S -> M S) (acc : S)
    : M S :=
  match l with
  | [] => mret acc
  | x :: l' => acc' ← body x acc; for_loop l' body acc'
  end.

(** [for x in l: body(x)] *)
Definition for_each {A : Type} (l : list A) (body : A -> M unit) : M unit :=
  for_loop l (fun x _ => body x) tt.

(** [[f(x) for x in l]] *)
Fixpoint comprehension {A B : Type} (l : list A) (f : A -> M B) : M (list B) :=
  match l with
  | [] => mret []
  | x :: l' => y ← f x; ys ← comprehension l' f; mret (y :: ys)
  end.

Definition reorder_spokes : M unit :=
  st ← get;
  let a := argsort ((fun r => Spoke.theta (store st r)) <$> spokes (self st)) in
  l ← comprehension a spokes_getitem;
  set_spokes l.

(** [lace_cross_side].  The loop carries [direction], which the body flips
    at its end. *)
Definition lace_cross_side (n_spokes n_cross side direction : Z)
    (offset diameter young_mod : R) (density : option R)
    (offset_lat offset_rad : R) : M bool :=
  let direction := (2 * (if (direction >? 0)%Z then 1 else 0) - 1)%Z in
  let side := Z.to_nat (1 * (if (side >? 0)%Z then 1 else 0)) in
  hub_width_ds ← getattr "hub_width_ds";
  hub_width_nds ← getattr "hub_width_nds";
  let hub_z := [- hub_width_ds + offset_lat; hub_width_nds - offset_lat] in
  h ← self_hub "diameter_ds";
  let hub_r := [Hub.diameter_ds h; Hub.diameter_nds h] in
  _ ← for_loop (range1 n_spokes) (fun s direction =>
    spacing ← lift (truediv (2 * PI) (IZR n_spokes));
    let theta_rim := spacing * IZR s + offset in
    s_dir ← lift (load_global "s_dir");
    let theta_hub := theta_rim + spacing * IZR n_cross * s_dir in
    du ← lift (match hub_z !! side with
               | Some z => Ok z
               | None => Raise IndexError
               end);
    rm ← self_rim "radius";
    r_side ← lift (match hub_r !! side with
                   | Some d => as_number d
                   | None => Raise IndexError
                   end);
    let dv := Rim.radius rm - offset_rad - r_side * cos (theta_hub - theta_rim) in
    let dw := r_side * sin (theta_hub - theta_rim) in
    rm ← self_rim "radius";
    h ← self_hub "diameter_ds";
    d_ds ← lift (as_number (Hub.diameter_ds h));
    let dv := Rim.radius rm - offset_rad
              - d_ds / 2 * cos (theta_hub - theta_rim) in
    h ← self_hub "diameter_ds";
    d_ds ← lift (as_number (Hub.diameter_ds h));
    let dw := d_ds / 2 * sin (theta_hub - theta_rim) in
    let length := sqrt (du ^ 2 + dv ^ 2 + dw ^ 2) in
    n0 ← lift (truediv du length);
    n1 ← lift (truediv dv length);
    n2 ← lift (truediv dw length);
    let n := (n0, n1, n2) in
    let b := (- offset, offset_rad, 0) in
    _ ← append_new (Spoke.init theta_rim n b length diameter young_mod density);
    mret (2 * (if (direction <? 0)%Z then 1 else 0) - 1)%Z) direction;
  _ ← reorder_spokes;
  mret true.

Definition lace_cross (n_spokes n_cross : Z) (diameter young_mod : R)
    (density : option R) (offset_lat offset_rad : R) : M bool :=
  _ ← set_spokes [];
  _ ← lace_cross_side (n_spokes / 2) n_cross 1 1 0
        diameter young_mod density offset_lat offset_rad;
  offset ← lift (truediv PI (IZR (n_spokes / 2)));
  _ ← lace_cross_side (n_spokes / 2) n_cross 1 1 offset
        diameter young_mod density offset_lat offset_rad;
  mret true.

Definition lace_radial (n_spokes : Z) (diameter young_mod : R)
    (density : option R) (offset_lat offset_rad : R) : M bool :=
  lace_cross n_spokes 0 diameter young_mod density offset_lat offset_rad.

(** [for i in range(start, len(self.spokes), 2): self.spokes[i].tension = T] *)
Definition set_every_other (start : nat) (T : R) : M unit :=
  st ← get;
  for_each (range3 start (List.length (spokes (self st))) 2) (fun i =>
    r ← spokes_getitem i;
    store_tension r T).

(** [|s_l.n[0]*s_r.n[1]| + |s_r.n[0]*s_l.n[1]|] *)
Definition balance_denominator (s_l s_r : Spoke.instance) : R :=
  Rabs (item (Spoke.n s_l) 0 * item (Spoke.n s_r) 1)
  + Rabs (item (Spoke.n s_r) 0 * item (Spoke.n s_l) 1).

Definition apply_tension (T_avg T_left T_right : option R) : M unit :=
  r_l ← spokes_getitem 0;
  r_r ← spokes_getitem 1;
  s_l ← deref r_l;
  s_r ← deref r_r;
  '(T_l, T_r) ←
    match T_avg, T_right, T_left with
    | Some T_avg, _, _ =>
        T_l ← lift (truediv (2 * T_avg * Rabs (item (Spoke.n s_r) 0))
                            (balance_denominator s_l s_r));
        T_r ← lift (truediv (2 * T_avg * Rabs (item (Spoke.n s_l) 0))
                            (balance_denominator s_l s_r));
        _ ← set_every_other 0 T_l;
        _ ← set_every_other 1 T_r;
        mret (T_l, T_r)
    | None, Some T_right, _ =>
        q ← lift (truediv (item (Spoke.n s_r) 0) (item (Spoke.n s_l) 0));
        mret (Rabs q * T_right, T_right)
    | None, None, Some T_left =>
        q ← lift (truediv (item (Spoke.n s_l) 0) (item (Spoke.n s_r) 0));
        mret (T_left, Rabs q * T_left)
    | None, None, None => raise TypeError
    end;
  _ ← set_every_other 0 T_l;
  set_every_other 1 T_r.

(** Entrywise operations on 4x4 arrays. *)
Definition add44 (a b : mat4) : mat4 := fun i j => a i j + b i j.
Definition scale44 (c : R) (a : mat4) : mat4 := fun i j => c * a i j.
Definition div44 (a : mat4) (c : R) : result mat4 :=
  if Req_dec_T c 0 then Raise ZeroDivisionError else Ok (fun i j => a i j / c).

Definition calc_kbar (with_tension : bool) : M mat4 :=
  st ← get;
  for_loop (spokes (self st)) (fun r k_bar =>
    s ← deref r;
    k ← lift (Spoke.calc_k s with_tension);
    rm ← self_rim "radius";
    k ← lift (div44 k (2 * PI * Rim.radius rm));
    mret (add44 k_bar k)) zeros44.

Definition calc_kbar_geom : M mat4 :=
  let k_bar := zeros44 in
  r_0 ← spokes_getitem 0;
  r_1 ← spokes_getitem 1;
  s_0 ← deref r_0;
  s_1 ← deref r_1;
  let T_d := balance_denominator s_0 s_1 in
  st ← get;
  for_loop (spokes (self st)) (fun r k_bar =>
    s ← deref r;
    w ← lift (truediv (Rabs (item (Spoke.n s) 0)) T_d);
    k ← lift (Spoke.calc_k_geom s);
    rm ← self_rim "radius";
    k ← lift (div44 (scale44 w k) (PI * Rim.radius rm));
    mret (add44 k_bar k)) k_bar.

(** [np.sum] *)
Definition np_sum (l : list R) : R := foldr Rplus 0 l.

(** [np.any(a == None)] *)
Definition any_None (l : list (option R)) : bool :=
  existsb (fun x => match x with None => true | Some _ => false end) l.

Definition calc_mass : M R :=
  rm ← self_rim "calc_mass";
  m_rim ← match Rim.calc_mass rm with
          | Some m => mret m
          | None => _ ← warn "Rim density is not specified."; mret 0
          end;
  st ← get;
  let m_spokes := (fun r => Spoke.calc_mass (store st r)) <$> spokes (self st) in
  (* [np.where(m_spokes == None, 0., m_spokes)]; with no [None] among
     them the masses are summed as they are *)
  m_spokes ← (if any_None m_spokes
              then _ ← warn "Some spoke densities are not specified.";
                   mret (default 0 <$> m_spokes)
              else mret (default 0 <$> m_spokes));
  mret (m_rim + np_sum m_spokes).

Definition calc_rot_inertia : M R :=
  rm ← self_rim "calc_rot_inertia";
  I_rim ← match Rim.calc_rot_inertia rm with
          | Some I_rim => mret I_rim
          | None => _ ← warn "Rim density is not specified."; mret 0
          end;
  st ← get;
  let I_spk :=
    (fun r => Spoke.calc_rot_inertia (store st r)) <$> spokes (self st) in
  I_spokes ←
    (if any_None I_spk
     then _ ← warn "Some spoke densities are not specified."; mret 0
     else
       for_loop (imap (fun i r => (i, r)) (spokes (self st)))
         (fun '(i, r) I_spokes =>
            s ← deref r;
            rm ← self_rim "radius";
            let rim_pt := (0, - Rim.radius rm + item (Spoke.b s) 1, 0) in
            let hub_pt := vadd rim_pt (vscale (Spoke.length s) (Spoke.n s)) in
            let mid_pt := vscale 0.5 (vadd rim_pt hub_pt) in
            m ← lift (match Spoke.calc_mass s with
                      | Some m => Ok m
                      | None => Raise TypeError
                      end);
            let mr2_spk := m * (item mid_pt 0 ^ 2 + item mid_pt 1 ^ 2) in
            I_i ← lift (match I_spk !! i with
                        | Some (Some I_i) => Ok I_i
                        | Some None => Raise TypeError
                        | None => Raise IndexError
                        end);
            mret (I_spokes + I_i + mr2_spk)) 0);
  mret (I_rim + I_spokes).

End BicycleWheel.

(** * Vocabulary of the properties *)

(** The number [offset] stands for once [None] has been replaced by 0. *)
Definition offset_or_zero (offset : pyval) : R :=
  match offset with
  | PyNone => 0
  | PyFloat x => x
  | PyInt z => IZR z
  end.

(** Two results agree when both are arrays with equal entries or both
    raise the same exception. *)
Definition agree (r1 r2 : result mat4) : Prop :=
  match r1, r2 with
  | Ok k1, Ok k2 => forall i j : nat, k1 i j = k2 i j
  | Raise e1, Raise e2 => e1 = e2
  | _, _ => False
  end.

Definition unit3 (v : vec3) : Prop := vdot v v = 1.

(** The block form [K_e n n^T + K_t (I - n n^T)] shared by both methods. *)
Definition k_f_of (K_e K_t : R) (n : vec3) : mat3 :=
  madd (mscale K_e (outer n n)) (mscale K_t (msub eye3 (outer n n))).

Definition k_of (K_e K_t : R) (n b : vec3) : mat4 :=
  let k_f := k_f_of K_e K_t n in
  Spoke.assemble k_f (mdot k_f (cross e3 b))
                 (vdot (vdotm (cross b e3) k_f) (cross b e3)).

Ltac index4 i :=
  destruct i as [|[|[|[|i]]]].

(** The right-hand side of the identity of C6. *)
Definition elastic_plus_geometric (s : Spoke.instance) : result mat4 :=
  k_0 ← Spoke.calc_k s false;
  k_g ← Spoke.calc_k_geom s;
  mret (BicycleWheel.add44 k_0 (BicycleWheel.scale44 (Spoke.tension s) k_g)).

(** The spoke with [EA] forced to 0 and unit tension, for which
    [K_e = 0] and [K_t = 1/length]. *)
Definition unit_tension (s : Spoke.instance) : Spoke.instance :=
  Spoke.mk (Spoke.theta s) (Spoke.n s) (Spoke.b s) (Spoke.length s)
           (Spoke.diameter s) (Spoke.young_mod s) (Spoke.density s) 1 0.

(** The attributes of [Spoke(0., (0., 1., 0.), (0., 0., 0.), 0.28, 0.002,
    210e9)] once its tension is 700: [EA] is the binary64 value of
    [np.pi / 4 * 0.002**2 * 210e9].  A decimal literal stands for the
    binary64 number nearest to it, as in Python. *)
Section Binary64_values.

Import PrimFloat.
Local Open Scope float_scope.
Local Set Warnings "-inexact-float".

Definition spoke_700 : Binary64.instance :=
  Binary64.mk (0, 1, 0) 0.28 700 659734.4572538565.

End Binary64_values.

Import BicycleWheel.

(** The state in which the wheel has lost its spokes and nothing else has
    changed: what [self.spokes = []] leaves. *)
Definition cleared (st : state) : state :=
  mkState (mk [] (rim (self st)) (hub (self st)) (extra (self st)))
          (store st) (next_id st) (warnings st).

(** The exception with which lacing a side of at least one spoke stops:
    the wheel has no attribute [hub_width_ds] (nor [hub_width_nds]); were it
    given both, and a hub, the first pass through the loop would stop at
    the undefined name [s_dir]. *)
Definition lacing_error (w : instance) : exn :=
  match extra w !! "hub_width_ds", extra w !! "hub_width_nds", hub w with
  | None, _, _ => AttributeError "hub_width_ds"
  | Some _, None, _ => AttributeError "hub_width_nds"
  | Some _, Some _, None => AttributeError "diameter_ds"
  | Some _, Some _, Some _ => NameError "s_dir"
  end.

(** Example objects: a rim, a hub and two spokes of a dished wheel, whose
    unit vectors lean 0.6 to one side and 0.8 to the other. *)
Definition rim_1 : Rim.instance :=
  Rim.general 0.3 1e-4 1e-9 1e-9 1e-9 0 70e9 26e9 (Some 2700).

Definition hub_1 : Hub.instance :=
  Hub.mk (PyFloat 0.05) (PyFloat 0.05) 0.025 0.025.

Definition spoke_l : Spoke.instance :=
  Spoke.init 0 (0.6, 0.8, 0) (0, 0, 0) 0.3 0.002 210e9 (Some 8000).

Definition spoke_r : Spoke.instance :=
  Spoke.init PI (-0.8, 0.6, 0) (0, 0, 0) 0.3 0.002 210e9 None.

Definition store_1 : loc -> Spoke.instance := fun r =>
  match r with
  | O => spoke_l
  | _ => spoke_r
  end.

(** A wheel whose list holds the two spokes, and one that holds only the
    first. *)
Definition wheel_2 : state :=
  mkState (mk [0%nat; 1%nat] (Some rim_1) (Some hub_1) ∅) store_1 2%nat [].

Definition wheel_1 : state :=
  mkState (mk [0%nat] (Some rim_1) (Some hub_1) ∅) store_1 2%nat [].

(** The objects that sit at one of the indices [idx] of the list [l]. *)
Definition touched (idx : list nat) (l : list loc) (r : loc) : Prop :=
  exists i, i ∈ idx /\ l !! i = Some r.

(** [st'] is [st] with the tension of the objects in [P] set to [T]. *)
Definition retensioned (P : loc -> Prop) (T : R) (st st' : state) : Prop :=
  self st' = self st
  /\ next_id st' = next_id st
  /\ warnings st' = warnings st
  /\ forall r,
       (P r -> store st' r = Spoke.set_tension (store st r) T)
       /\ (~ P r -> store st' r = store st r).

(** The objects at the even ([true]) or odd ([false]) indices of [l]. *)
Definition at_parity (l : list loc) (even : bool) (r : loc) : Prop :=
  exists i, l !! i = Some r /\ Nat.even i = even.

(** [st'] is [st] with the tension of the wheel's spokes set to [T_l] at
    the even indices and to [T_r] at the odd ones, and nothing else
    changed. *)
Definition tensioned (T_l T_r : R) (st st' : state) : Prop :=
  self st' = self st
  /\ next_id st' = next_id st
  /\ warnings st' = warnings st
  /\ (forall i r, spokes (self st) !! i = Some r ->
        store st' r
        = Spoke.set_tension (store st r) (if Nat.even i then T_l else T_r))
  /\ (forall r, r ∉ spokes (self st) -> store st' r = store st r).

Ltac rabs := unfold Rabs; repeat destruct Rcase_abs; try lra.

(** The state after [warn(msg)]. *)
Definition warned (msg : string) (st : state) : state :=
  mkState (self st) (store st) (next_id st) (warnings st ++ [msg]).

(** What C8 asks of one spoke, in its words: the slender-rod term plus the
    parallel-axis term at the midpoint of the spoke, for a spoke whose
    density is known, and zero for one whose density is not. *)
Definition known_spoke_inertia (rm : Rim.instance) (s : Spoke.instance) : R :=
  match Spoke.calc_rot_inertia s, Spoke.calc_mass s with
  | Some I_s, Some m =>
      let rim_pt := (0, - Rim.radius rm + item (Spoke.b s) 1, 0) in
      let hub_pt := vadd rim_pt (vscale (Spoke.length s) (Spoke.n s)) in
      let mid_pt := vscale 0.5 (vadd rim_pt hub_pt) in
      I_s + m * (item mid_pt 0 ^ 2 + item mid_pt 1 ^ 2)
  | _, _ => 0
  end.

(** The total C8 asks for: the rim and the known spokes. *)
Definition rot_inertia_of_known (rm : Rim.instance) (st : state) : R :=
  default 0 (Rim.calc_rot_inertia rm)
  + np_sum ((fun r => known_spoke_inertia rm (store st r)) <$> spokes (self st)).

(** Row [i] of the product of a 4x4 array and a 4-vector. *)
Definition apply4 (k : mat4) (x : nat -> R) (i : nat) : R :=
  sum4 (fun j => k i j * x j).

(** The 4-vector [(d0, d1, d2, d3)]. *)
Definition vec4 (d0 d1 d2 d3 : R) : nat -> R := fun i =>
  match i with
  | O => d0
  | S O => d1
  | S (S O) => d2
  | _ => d3
  end.

(** Two outcomes of [Hub.__init__] with the same widths, or the same
    exception. *)
Definition same_widths (r1 r2 : result Hub.instance) : Prop :=
  match r1, r2 with
  | Ok h1, Ok h2 =>
      Hub.width_nds h1 = Hub.width_nds h2 /\ Hub.width_ds h1 = Hub.width_ds h2
  | Raise e1, Raise e2 => e1 = e2
  | _, _ => False
  end.

(** [st'] holds the same wheel and the same Spoke objects as [st]; only
    the warnings may differ. *)
Definition same_objects (st st' : state) : Prop :=
  self st' = self st /\ store st' = store st /\ next_id st' = next_id st.

(** A spoke that meets the data model: positive length, unit direction,
    nonnegative axial stiffness and tension. *)
Definition well_formed (s : Spoke.instance) : Prop :=
  0 < Spoke.length s /\ unit3 (Spoke.n s)
  /\ 0 <= Spoke.EA s /\ 0 <= Spoke.tension s.

(** The state after the warnings [ws] have been issued. *)
Definition with_warnings (ws : list string) (st : state) : state :=
  mkState (self st) (store st) (next_id st) (warnings st ++ ws).

(** The warning for a rim without density, if it is one. *)
Definition rim_warning (rm : Rim.instance) : list string :=
  match Rim.density rm with
  | Some _ => []
  | None => ["Rim density is not specified."]
  end.

(** The warning for spokes without density, if there is one. *)
Definition spoke_warning (st : state) : list string :=
  if any_None ((fun r => Spoke.density (store st r)) <$> spokes (self st))
  then ["Some spoke densities are not specified."]
  else [].

(** [st'] differs from [st] at most in the tension of the wheel's spokes:
    the wheel, the warnings and every other field of every Spoke object
    are the same, and an object that is not in the wheel is untouched. *)
Definition only_tension_changed (st st' : state) : Prop :=
  self st' = self st
  /\ next_id st' = next_id st
  /\ warnings st' = warnings st
  /\ (forall r, Spoke.set_tension (store st' r) 0
                = Spoke.set_tension (store st r) 0)
  /\ (forall r, r ∉ spokes (self st) -> store st' r = store st r).

(** The list [l] of Spoke objects is in ascending order of theta. *)
Definition sorted_by_theta (st : state) (l : list loc) : Prop :=
  forall i j r_i r_j, (i <= j)%nat ->
    l !! i = Some r_i -> l !! j = Some r_j ->
    Spoke.theta (store st r_i) <= Spoke.theta (store st r_j).

(** The order of two indices by their keys. *)
Definition le_key (keys : list R) (i j : nat) : Prop :=
  nth i keys 0 <= nth j keys 0.

(** * Properties *)

(** ** Results *)

Lemma truediv_ok (x y : R) : y <> 0 -> truediv x y = Ok (x / y).
Proof. intros Hy. unfold truediv. destruct (Req_dec_T y 0); [contradiction | reflexivity]. Qed.

Lemma truediv_zero (x : R) : truediv x 0 = Raise ZeroDivisionError.
Proof. unfold truediv. destruct (Req_dec_T 0 0); [reflexivity | contradiction]. Qed.

Lemma load_global_s_dir : load_global "s_dir" = Raise (NameError "s_dir").
Proof. reflexivity. Qed.

(** ** Rim.box *)

(** Whatever its arguments, [box] does not return: it raises at the
    division or at the read of [I_warp]. *)
Lemma box_never_returns (radius w h t young_mod shear_mod : R)
    (density : option R) (r : Rim.instance) :
  Rim.box radius w h t young_mod shear_mod density <> Ok r.
Proof.
  unfold Rim.box, truediv.
  destruct (Req_dec_T (w + h) 0); cbn; discriminate.
Qed.

(** C2 (as the code behaves): for positive radius, w, h, t, young_mod and
    shear_mod, [Rim.box] returns no Rim; it raises [UnboundLocalError] when
    line 58, [I_warp = I_warp], reads the local [I_warp] before anything was
    assigned to it. *)
Theorem box_raises_unbound_local (radius w h t young_mod shear_mod : R)
    (density : option R) :
  0 < radius -> 0 < w -> 0 < h -> 0 < t -> 0 < young_mod -> 0 < shear_mod ->
  Rim.box radius w h t young_mod shear_mod density
  = Raise (UnboundLocalError "I_warp").
Proof.
  intros _ Hw Hh _ _ _.
  unfold Rim.box.
  rewrite truediv_ok by lra.
  reflexivity.
Qed.

Lemma box_raises_unbound_local_witness :
  Rim.box 0.3 0.01 0.015 0.002 70e9 26e9 None
  = Raise (UnboundLocalError "I_warp").
Proof. apply box_raises_unbound_local; lra. Defined.

(** ** Hub.__init__ *)

(** C7 (as stated) fails where the width is given as an int: 50 is not a
    [float], so the symmetric branch is skipped and, with no per-side
    width, the constructor raises instead of deriving 25 and 25. *)
Lemma hub_init_int_width_counterexample :
  let r := Hub.init (PyFloat 0.05) PyNone PyNone (PyInt 50) PyNone PyNone PyNone in
  is_None (PyInt 50) = false
  /\ r = Raise (ValueError Hub.msg_incomplete)
  /\ ~ (exists h, r = Ok h
                  /\ Hub.width_nds h = 50 / 2 + 0
                  /\ Hub.width_ds h = 50 / 2 - 0).
Proof.
  cbn. split; [reflexivity | split; [reflexivity |]].
  intros (h & Hh & _). discriminate Hh.
Qed.

(** C7 (amended): the widths are resolved by precedence, where a width is
    given when it is a [float] and a per-side width is supplied when it is
    not [None].  A float [width] with no per-side width supplied gives
    width/2 + offset and width/2 - offset (offset 0 when absent); a float
    [width] with a per-side width supplied raises [ValueError]; otherwise
    two float per-side widths are used as they are; otherwise [ValueError]
    is raised. *)
Theorem hub_init_width_precedence
    (diameter diameter_nds diameter_ds width width_nds width_ds offset : pyval) :
  let r := Hub.init diameter diameter_nds diameter_ds
                    width width_nds width_ds offset in
  (forall w, width = PyFloat w -> width_nds = PyNone -> width_ds = PyNone ->
     exists h, r = Ok h
               /\ Hub.width_nds h = w / 2 + offset_or_zero offset
               /\ Hub.width_ds h = w / 2 - offset_or_zero offset)
  /\ (forall w, width = PyFloat w ->
        width_nds <> PyNone \/ width_ds <> PyNone ->
        r = Raise (ValueError Hub.msg_ambiguous))
  /\ (forall a b, isinstance_float width = false ->
        width_nds = PyFloat a -> width_ds = PyFloat b ->
        exists h, r = Ok h /\ Hub.width_nds h = a /\ Hub.width_ds h = b)
  /\ (isinstance_float width = false ->
        isinstance_float width_nds && isinstance_float width_ds = false ->
        r = Raise (ValueError Hub.msg_incomplete)).
Proof.
  cbv zeta. repeat split.
  - intros w -> -> ->. destruct offset; cbn; eauto.
  - intros w -> H. destruct offset; cbn.
    all: destruct width_nds, width_ds; cbn; try reflexivity.
    all: destruct H as [H | H]; contradiction H; reflexivity.
  - intros a b Hw -> ->. destruct width; cbn in *; try discriminate; eauto.
  - intros Hw Hs.
    destruct width; cbn in *; try discriminate.
    all: destruct width_nds, width_ds; cbn in *; try discriminate; reflexivity.
Qed.

Lemma hub_init_width_precedence_witness :
  (exists h, Hub.init (PyFloat 0.05) PyNone PyNone
                      (PyFloat 0.05) PyNone PyNone (PyFloat 0.01) = Ok h
             /\ Hub.width_nds h = 0.05 / 2 + 0.01
             /\ Hub.width_ds h = 0.05 / 2 - 0.01)
  /\ Hub.init (PyFloat 0.05) PyNone PyNone
              (PyFloat 0.05) (PyFloat 0.03) PyNone PyNone
     = Raise (ValueError Hub.msg_ambiguous)
  /\ (exists h, Hub.init (PyFloat 0.05) PyNone PyNone
                         PyNone (PyFloat 0.03) (PyFloat 0.02) PyNone = Ok h
                /\ Hub.width_nds h = 0.03 /\ Hub.width_ds h = 0.02)
  /\ Hub.init (PyFloat 0.05) PyNone PyNone
              PyNone (PyFloat 0.03) PyNone PyNone
     = Raise (ValueError Hub.msg_incomplete).
Proof.
  split; [| split; [| split]].
  - destruct (hub_init_width_precedence (PyFloat 0.05) PyNone PyNone
                (PyFloat 0.05) PyNone PyNone (PyFloat 0.01)) as (H & _).
    apply (H 0.05); reflexivity.
  - destruct (hub_init_width_precedence (PyFloat 0.05) PyNone PyNone
                (PyFloat 0.05) (PyFloat 0.03) PyNone PyNone) as (_ & H & _).
    apply (H 0.05); [reflexivity | left; discriminate].
  - destruct (hub_init_width_precedence (PyFloat 0.05) PyNone PyNone
                PyNone (PyFloat 0.03) (PyFloat 0.02) PyNone) as (_ & _ & H & _).
    apply H; reflexivity.
  - destruct (hub_init_width_precedence (PyFloat 0.05) PyNone PyNone
                PyNone (PyFloat 0.03) PyNone PyNone) as (_ & _ & _ & H).
    apply H; reflexivity.
Defined.

(** ** Spoke.calc_k and Spoke.calc_k_geom *)

Lemma calc_k_eq (s : Spoke.instance) (flag : bool) :
  Spoke.length s <> 0 ->
  Spoke.calc_k s flag
  = Ok (k_of (Spoke.EA s / Spoke.length s)
             (if flag then Spoke.tension s / Spoke.length s else 0)
             (Spoke.n s) (Spoke.b s)).
Proof.
  intros HL. unfold Spoke.calc_k.
  rewrite (truediv_ok (Spoke.EA s)) by assumption.
  destruct flag; [rewrite truediv_ok by assumption |]; reflexivity.
Qed.

Lemma calc_k_zero_length (s : Spoke.instance) (flag : bool) :
  Spoke.length s = 0 -> Spoke.calc_k s flag = Raise ZeroDivisionError.
Proof.
  intros HL. unfold Spoke.calc_k.
  rewrite HL, (truediv_zero (Spoke.EA s)). reflexivity.
Qed.

Lemma calc_k_geom_eq (s : Spoke.instance) :
  Spoke.length s <> 0 ->
  exists k, Spoke.calc_k_geom s = Ok k
            /\ forall i j, k i j = k_of 0 (1 / Spoke.length s)
                                        (Spoke.n s) (Spoke.b s) i j.
Proof.
  intros HL. unfold Spoke.calc_k_geom.
  rewrite truediv_ok by assumption. cbn.
  eexists. split; [reflexivity |].
  intros i j. destruct (Spoke.n s) as [[n0 n1] n2], (Spoke.b s) as [[b0 b1] b2].
  index4 i; index4 j; cbn; ring.
Qed.

Lemma calc_k_geom_zero_length (s : Spoke.instance) :
  Spoke.length s = 0 -> Spoke.calc_k_geom s = Raise ZeroDivisionError.
Proof.
  intros HL. unfold Spoke.calc_k_geom. rewrite HL, truediv_zero. reflexivity.
Qed.

Lemma k_of_symmetric (K_e K_t : R) (n b : vec3) : symmetric4 (k_of K_e K_t n b).
Proof.
  destruct n as [[n0 n1] n2], b as [[b0 b1] b2].
  intros i j Hi Hj.
  index4 i; try lia; index4 j; try lia; cbn; ring.
Qed.

(** The quadratic form of [k] is the quadratic form of [k_f] at the
    displacement [y] of the nipple, [y = (x0, x1, x2) + x3 (e3 x b)]; with
    Lagrange's identity it is a sum of squares when [n] is a unit vector. *)
Lemma k_of_quad (K_e K_t : R) (n b : vec3) (x : nat -> R) :
  let y := vadd (x 0%nat, x 1%nat, x 2%nat) (vscale (x 3%nat) (cross e3 b)) in
  quad4 (k_of K_e K_t n b) x
  = K_e * vdot n y ^ 2
    + K_t * (vdot (cross n y) (cross n y) + (1 - vdot n n) * vdot y y).
Proof.
  destruct n as [[n0 n1] n2], b as [[b0 b1] b2].
  cbn. unfold quad4, sum4. cbn. ring.
Qed.

Lemma vdot_self_nonneg (v : vec3) : 0 <= vdot v v.
Proof. destruct v as [[v0 v1] v2]. cbn. nra. Qed.

Lemma k_of_psd (K_e K_t : R) (n b : vec3) :
  unit3 n -> 0 <= K_e -> 0 <= K_t -> psd4 (k_of K_e K_t n b).
Proof.
  intros Hn He Ht x. rewrite k_of_quad. cbv zeta. rewrite Hn.
  set (y := vadd _ _).
  pose proof (vdot_self_nonneg (cross n y)) as Hc.
  pose proof (pow2_ge_0 (vdot n y)) as Hd.
  replace ((1 - 1) * vdot y y) with 0 by ring.
  rewrite Rplus_0_r.
  apply Rplus_le_le_0_compat; apply Rmult_le_pos; assumption.
Qed.




Section Binary64_identity.

Import PrimFloat.
Local Open Scope float_scope.
Local Set Warnings "-inexact-float".

(** C6 (as stated) fails in binary64, where [==] compares the computed
    entries: for the spoke with n = (0, 1, 0), length 0.28 and tension
    700, [calc_k(True)[0, 0]] is K_t = 700/0.28 = 2499.9999999999995,
    while [calc_k(False)[0, 0] + 700 * calc_k_geom()[0, 0]] is
    0 + 700 * (1/0.28) = 2500: one division on the left, the rounded
    reciprocal and a multiplication on the right.  The two entries are
    neighbours in binary64: they differ in the last bit. *)
Lemma calc_k_binary64_counterexample :
  exists k k' : Binary64.mat3,
    Binary64.k_f spoke_700 true = Ok k
    /\ Binary64.elastic_plus_geometric spoke_700 = Ok k'
    /\ Binary64.item2 k 0 0 = 2499.9999999999995
    /\ Binary64.item2 k' 0 0 = 2500
    /\ (Binary64.item2 k 0 0 =? Binary64.item2 k' 0 0) = false
    /\ next_up (Binary64.item2 k 0 0) = Binary64.item2 k' 0 0.
Proof.
  eexists. eexists.
  split; [vm_compute; reflexivity |].
  split; [vm_compute; reflexivity |].
  repeat split; vm_compute; reflexivity.
Qed.

End Binary64_identity.

(** C6, up to rounding: with the arithmetic taken exactly, the entries
    being real numbers, for every Spoke [calc_k(tension=True)] and
    [calc_k(tension=False) + tension * calc_k_geom()] are the same matrix
    entry by entry, and [calc_k_geom()] is [calc_k] with K_e = 0 and
    K_t = 1/length; the matrices exist unless the length is 0, where all
    three calls raise the same exception.  In binary64 every operation
    is rounded and the entries of the two sides need not be equal bit for
    bit. *)
Theorem calc_k_elastic_plus_geometric (s : Spoke.instance) :
  agree (Spoke.calc_k s true) (elastic_plus_geometric s)
  /\ agree (Spoke.calc_k_geom s) (Spoke.calc_k (unit_tension s) true)
  /\ (Spoke.length s = 0 \/ exists k, Spoke.calc_k s true = Ok k).
Proof.
  destruct (Req_dec_T (Spoke.length s) 0) as [HL | HL].
  - unfold elastic_plus_geometric.
    rewrite !calc_k_zero_length, calc_k_geom_zero_length by assumption.
    cbn. auto.
  - destruct (calc_k_geom_eq s HL) as (k_g & Hg & Hk).
    unfold elastic_plus_geometric.
    rewrite !calc_k_eq, Hg by assumption. cbn.
    split; [| split; [| right; eauto]].
    + intros i j. unfold BicycleWheel.add44, BicycleWheel.scale44.
      rewrite Hk.
      destruct (Spoke.n s) as [[n0 n1] n2], (Spoke.b s) as [[b0 b1] b2].
      index4 i; index4 j; cbn; unfold Rdiv, zeros44; ring.
    + intros i j. rewrite Hk.
      destruct (Spoke.n s) as [[n0 n1] n2], (Spoke.b s) as [[b0 b1] b2].
      index4 i; index4 j; cbn; unfold Rdiv, zeros44; ring.
Qed.

(** ** Running a method *)

Lemma bind_run {A B : Type} (m : M A) (f : A -> M B) (st : state) :
  (m ≫= f) st
  = match m st with
    | (Ok a, st') => f a st'
    | (Raise e, st') => (Raise e, st')
    end.
Proof. reflexivity. Qed.

Lemma ret_run {A : Type} (a : A) (st : state) : (mret a : M A) st = (Ok a, st).
Proof. reflexivity. Qed.

Lemma set_spokes_nil (st : state) : set_spokes [] st = (Ok tt, cleared st).
Proof. reflexivity. Qed.

Lemma cleared_idem (st : state) : cleared (cleared st) = cleared st.
Proof. reflexivity. Qed.

Lemma reorder_spokes_cleared (st : state) :
  reorder_spokes (cleared st) = (Ok tt, cleared st).
Proof. reflexivity. Qed.

(** ** lace_cross_side and lace_cross *)

Lemma range1_pos (n : Z) :
  (1 <= n)%Z -> exists l, range1 n = 0%Z :: l.
Proof.
  intros Hn. unfold range1.
  destruct (Z.to_nat n) as [| k] eqn:Hk; [lia |].
  cbn. eauto.
Qed.

Lemma range1_nonpos (n : Z) : (n <= 0)%Z -> range1 n = [].
Proof.
  intros Hn. unfold range1.
  replace (Z.to_nat n) with 0%nat by lia. reflexivity.
Qed.

(** Lacing a side of at least one spoke raises before any spoke is
    appended and leaves the state as it was. *)
Lemma lace_cross_side_raises (n_spokes n_cross side direction : Z)
    (offset diameter young_mod : R) (density : option R)
    (offset_lat offset_rad : R) (st : state) :
  (1 <= n_spokes)%Z ->
  lace_cross_side n_spokes n_cross side direction offset diameter young_mod
                  density offset_lat offset_rad st
  = (Raise (lacing_error (self st)), st).
Proof.
  intros Hn. unfold lace_cross_side, lacing_error.
  rewrite bind_run. unfold getattr at 1.
  destruct (extra (self st) !! "hub_width_ds") as [wd |]; [| reflexivity].
  rewrite bind_run. unfold getattr at 1.
  destruct (extra (self st) !! "hub_width_nds") as [wn |]; [| reflexivity].
  rewrite bind_run. unfold self_hub at 1.
  destruct (hub (self st)) as [h |] eqn:Hh; [| reflexivity].
  destruct (range1_pos n_spokes Hn) as (l & ->).
  rewrite bind_run. cbn [for_loop].
  rewrite !bind_run. unfold lift at 1.
  rewrite truediv_ok by (apply not_0_IZR; lia).
  rewrite bind_run. unfold lift at 1. rewrite load_global_s_dir.
  reflexivity.
Qed.

(** Lacing a side of no spoke (a count of 0 or less) on a wheel without
    spokes may return or raise, and leaves the state as it was. *)
Lemma lace_cross_side_empty (n_spokes n_cross side direction : Z)
    (offset diameter young_mod : R) (density : option R)
    (offset_lat offset_rad : R) (st : state) :
  (n_spokes <= 0)%Z ->
  exists r,
    lace_cross_side n_spokes n_cross side direction offset diameter young_mod
                    density offset_lat offset_rad (cleared st)
    = (r, cleared st).
Proof.
  intros Hn. unfold lace_cross_side.
  rewrite bind_run. unfold getattr at 1.
  destruct (extra (self (cleared st)) !! "hub_width_ds") as [wd |]; [| eauto].
  rewrite bind_run. unfold getattr at 1.
  destruct (extra (self (cleared st)) !! "hub_width_nds") as [wn |]; [| eauto].
  rewrite bind_run. unfold self_hub at 1.
  destruct (hub (self (cleared st))) as [h |] eqn:Hh; [| eauto].
  rewrite range1_nonpos by assumption.
  rewrite bind_run. cbn [for_loop]. rewrite ret_run.
  rewrite bind_run, reorder_spokes_cleared. eauto.
Qed.

(** Whatever lacing a side does on a wheel without spokes, the wheel has
    no spokes afterwards and nothing else has changed. *)
Lemma lace_cross_side_cleared (n_spokes n_cross side direction : Z)
    (offset diameter young_mod : R) (density : option R)
    (offset_lat offset_rad : R) (st : state) :
  exists r,
    lace_cross_side n_spokes n_cross side direction offset diameter young_mod
                    density offset_lat offset_rad (cleared st)
    = (r, cleared st).
Proof.
  destruct (Z_le_gt_dec n_spokes 0) as [Hn | Hn].
  - apply lace_cross_side_empty, Hn.
  - rewrite lace_cross_side_raises by lia. eauto.
Qed.

(** Every run of [lace_cross] ends with the spokes emptied and the rest of
    the state untouched. *)
Lemma lace_cross_cleared (n_spokes n_cross : Z) (diameter young_mod : R)
    (density : option R) (offset_lat offset_rad : R) (st : state) :
  exists r,
    lace_cross n_spokes n_cross diameter young_mod density
               offset_lat offset_rad st = (r, cleared st).
Proof.
  unfold lace_cross.
  rewrite bind_run, set_spokes_nil.
  rewrite bind_run.
  destruct (lace_cross_side_cleared (n_spokes / 2) n_cross 1 1 0 diameter
              young_mod density offset_lat offset_rad st) as (r1 & ->).
  destruct r1 as [? | e]; [| eauto].
  rewrite bind_run. unfold lift at 1.
  destruct (truediv PI (IZR (n_spokes / 2))) as [off | e]; [| eauto].
  rewrite bind_run.
  destruct (lace_cross_side_cleared (n_spokes / 2) n_cross 1 1 off diameter
              young_mod density offset_lat offset_rad st) as (r2 & ->).
  destruct r2 as [? | e]; eauto.
Qed.

(** With two spokes or more asked for, [lace_cross] raises in its first
    call of [lace_cross_side]. *)
Lemma lace_cross_raises (n_spokes n_cross : Z) (diameter young_mod : R)
    (density : option R) (offset_lat offset_rad : R) (st : state) :
  (2 <= n_spokes)%Z ->
  lace_cross n_spokes n_cross diameter young_mod density
             offset_lat offset_rad st
  = (Raise (lacing_error (self st)), cleared st).
Proof.
  intros Hn. unfold lace_cross.
  rewrite bind_run, set_spokes_nil.
  rewrite bind_run.
  rewrite lace_cross_side_raises by (apply Z.div_le_lower_bound; lia).
  reflexivity.
Qed.

(** A wheel as [__init__] and the caller leave it: a rim and a hub, no
    other attribute, however many spokes. *)
Lemma lacing_error_plain_wheel (w : instance) :
  extra w = ∅ -> lacing_error w = AttributeError "hub_width_ds".
Proof. intros H. unfold lacing_error. rewrite H. reflexivity. Qed.

(** C1 (as the code behaves): for every even n_spokes >= 2 and every wheel
    with a rim and a hub, [lace_cross] discards the spokes the wheel had
    and then raises before it has made a single spoke, so the wheel ends
    with no spoke, not with n_spokes of them. *)
Theorem lace_cross_never_laces (n_spokes n_cross : Z) (diameter young_mod : R)
    (density : option R) (offset_lat offset_rad : R) (st : state) :
  (2 <= n_spokes)%Z -> Z.even n_spokes = true ->
  is_Some (rim (self st)) -> is_Some (hub (self st)) ->
  exists st',
    lace_cross n_spokes n_cross diameter young_mod density
               offset_lat offset_rad st
    = (Raise (lacing_error (self st)), st')
    /\ spokes (self st') = []
    /\ List.length (spokes (self st')) <> Z.to_nat n_spokes.
Proof.
  intros Hn _ _ _. exists (cleared st).
  split; [apply lace_cross_raises, Hn |].
  split; [reflexivity |]. cbn. lia.
Qed.

Lemma lace_cross_never_laces_witness :
  exists st',
    lace_cross 36 3 0.002 210e9 None 0 0 wheel_2
    = (Raise (AttributeError "hub_width_ds"), st')
    /\ spokes (self st') = []
    /\ List.length (spokes (self st')) <> Z.to_nat 36.
Proof.
  apply (lace_cross_never_laces 36 3 0.002 210e9 None 0 0 wheel_2).
  - lia.
  - reflexivity.
  - cbn. eauto.
  - cbn. eauto.
Defined.

(** C10: [lace_cross] empties the wheel's spoke list before it generates
    any spoke; when it raises, the wheel is left without spokes, the ones
    it had are not put back, and nothing else has changed. *)
Theorem lace_cross_raise_loses_spokes (n_spokes n_cross : Z)
    (diameter young_mod : R) (density : option R) (offset_lat offset_rad : R)
    (st st' : state) (e : exn) :
  lace_cross n_spokes n_cross diameter young_mod density
             offset_lat offset_rad st = (Raise e, st') ->
  st' = cleared st /\ spokes (self st') = [].
Proof.
  intros H.
  destruct (lace_cross_cleared n_spokes n_cross diameter young_mod density
              offset_lat offset_rad st) as (r & Hr).
  rewrite Hr in H. injection H as _ <-. split; reflexivity.
Qed.

Lemma lace_cross_raise_loses_spokes_witness :
  spokes (self wheel_2) = [0%nat; 1%nat]
  /\ exists e st',
       lace_cross 36 3 0.002 210e9 None 0 0 wheel_2 = (Raise e, st')
       /\ st' = cleared wheel_2 /\ spokes (self st') = [].
Proof.
  split; [reflexivity |].
  exists (lacing_error (self wheel_2)), (cleared wheel_2).
  split; [apply lace_cross_raises; lia |].
  apply (lace_cross_raise_loses_spokes 36 3 0.002 210e9 None 0 0
           wheel_2 (cleared wheel_2) (lacing_error (self wheel_2))).
  apply lace_cross_raises. lia.
Defined.

(** ** apply_tension and calc_kbar_geom on short wheels *)

(** C9: on a wheel with fewer than two spokes, [apply_tension] raises
    [IndexError] whatever its arguments, before it has validated them or
    assigned a tension (the state is unchanged), and so does
    [calc_kbar_geom]; the [TypeError] for a call without arguments is
    raised exactly on the wheels with two spokes or more. *)
Theorem apply_tension_needs_two_spokes (st : state) :
  ((List.length (spokes (self st)) < 2)%nat ->
     (forall T_avg T_left T_right : option R,
        apply_tension T_avg T_left T_right st = (Raise IndexError, st))
     /\ calc_kbar_geom st = (Raise IndexError, st))
  /\ (apply_tension None None None st = (Raise TypeError, st)
      <-> (2 <= List.length (spokes (self st)))%nat).
Proof.
  destruct st as [[sp rm hb ex] sto nx wr].
  destruct sp as [| r0 [| r1 sp]]; cbn [self spokes List.length].
  - split; [intros _; split; reflexivity |].
    split; [discriminate | lia].
  - split; [intros _; split; reflexivity |].
    split; [discriminate | lia].
  - split; [lia |].
    split; [lia | reflexivity].
Qed.

Lemma apply_tension_needs_two_spokes_witness :
  apply_tension (Some 800) None None wheel_1 = (Raise IndexError, wheel_1)
  /\ calc_kbar_geom wheel_1 = (Raise IndexError, wheel_1)
  /\ apply_tension None None None wheel_2 = (Raise TypeError, wheel_2).
Proof.
  destruct (apply_tension_needs_two_spokes wheel_1) as (H1 & _).
  destruct (apply_tension_needs_two_spokes wheel_2) as (_ & H2).
  destruct H1 as (Ha & Hk); [cbn; lia |].
  split; [apply Ha |]. split; [apply Hk |].
  apply H2. cbn. lia.
Defined.

(** ** The loops of apply_tension *)

Lemma set_tension_idem (s : Spoke.instance) (T T' : R) :
  Spoke.set_tension (Spoke.set_tension s T) T' = Spoke.set_tension s T'.
Proof. reflexivity. Qed.

Lemma elem_of_range_from (fuel start stop i : nat) :
  (stop <= start + fuel)%nat ->
  i ∈ range_from fuel start stop 2
  <-> (start <= i < stop)%nat /\ exists k : nat, i = (start + 2 * k)%nat.
Proof.
  revert start. induction fuel as [| fuel IH]; intros start Hf; cbn [range_from].
  - rewrite elem_of_nil. split; [tauto | lia].
  - destruct (Nat.ltb_spec start stop) as [Hlt | Hge].
    + rewrite elem_of_cons, IH by lia. split.
      * intros [-> | (Hi & k & ->)].
        -- split; [lia | exists 0%nat; lia].
        -- split; [lia | exists (S k); lia].
      * intros (Hi & [| k] & ->).
        -- left. lia.
        -- right. split; [lia | exists k; lia].
    + rewrite elem_of_nil. split; [tauto | lia].
Qed.

Lemma elem_of_range3 (start stop i : nat) :
  i ∈ range3 start stop 2
  <-> (start <= i < stop)%nat /\ exists k : nat, i = (start + 2 * k)%nat.
Proof. apply elem_of_range_from. lia. Qed.

Lemma classic_touched (idx : list nat) (l : list loc) (r : loc) :
  touched idx l r \/ ~ touched idx l r.
Proof.
  unfold touched. induction idx as [| i idx IH].
  - right. intros (i & Hi & _). apply elem_of_nil in Hi. contradiction.
  - destruct IH as [(j & Hj & Hr) | Hno].
    + left. exists j. split; [right; exact Hj | exact Hr].
    + destruct (decide (l !! i = Some r)) as [Hi | Hi].
      * left. exists i. split; [left | exact Hi].
      * right. intros (j & Hj & Hr).
        apply elem_of_cons in Hj as [-> | Hj]; [contradiction |].
        apply Hno. exists j. split; assumption.
Qed.

Lemma for_each_store_tension (idx : list nat) (T : R) (st : state) :
  (forall i, i ∈ idx -> (i < List.length (spokes (self st)))%nat) ->
  exists st',
    for_each idx (fun i => r ← spokes_getitem i; store_tension r T) st
    = (Ok tt, st')
    /\ retensioned (touched idx (spokes (self st))) T st st'.
Proof.
  unfold for_each. revert st.
  induction idx as [| i idx IH]; intros st Hidx; cbn [for_loop].
  - exists st. split; [reflexivity |].
    repeat split; try reflexivity.
    intros (i & Hi & _). apply elem_of_nil in Hi. contradiction.
  - destruct (lookup_lt_is_Some_2 (spokes (self st)) i) as (ri & Hri).
    { apply Hidx. left. }
    rewrite bind_run, bind_run. unfold spokes_getitem at 1. rewrite Hri.
    set (st1 := (store_tension ri T st).2).
    change (store_tension ri T st) with (Ok tt, st1).
    destruct (IH st1) as (st' & Hrun & Hself & Hnext & Hwarn & Hstore).
    { intros j Hj. apply Hidx. right. exact Hj. }
    exists st'. split; [exact Hrun |].
    repeat split; try assumption.
    + intros (j & Hj & Hrj).
      destruct (decide (r = ri)) as [-> | Hne].
      * destruct (Hstore ri) as (Hin & Hout).
        assert (Hst1 : store st1 ri = Spoke.set_tension (store st ri) T).
        { cbn. destruct (decide (ri = ri)); [reflexivity | contradiction]. }
        destruct (classic_touched idx (spokes (self st)) ri) as [Ht | Ht].
        -- rewrite Hin by exact Ht. rewrite Hst1. apply set_tension_idem.
        -- rewrite Hout by exact Ht. exact Hst1.
      * destruct (Hstore r) as (Hin & _).
        rewrite Hin.
        -- cbn. destruct (decide (r = ri)); [contradiction | reflexivity].
        -- apply elem_of_cons in Hj as [-> | Hj].
           ++ rewrite Hri in Hrj. injection Hrj as <-. contradiction.
           ++ exists j. split; assumption.
    + intros Hnot.
      destruct (Hstore r) as (_ & Hout).
      rewrite Hout.
      * cbn. destruct (decide (r = ri)) as [-> | Hne]; [| reflexivity].
        exfalso. apply Hnot. exists i. split; [left | exact Hri].
      * intros (j & Hj & Hrj). apply Hnot.
        exists j. split; [right; exact Hj | exact Hrj].
Qed.

Lemma set_every_other_run (start : nat) (T : R) (st : state) :
  exists st',
    set_every_other start T st = (Ok tt, st')
    /\ retensioned
         (touched (range3 start (List.length (spokes (self st))) 2)
                  (spokes (self st))) T st st'.
Proof.
  unfold set_every_other. rewrite bind_run. cbn [get].
  apply for_each_store_tension.
  intros i Hi. apply elem_of_range3 in Hi. lia.
Qed.

Lemma touched_even (l : list loc) (r : loc) :
  touched (range3 0 (List.length l) 2) l r <-> at_parity l true r.
Proof.
  unfold touched, at_parity. split.
  - intros (i & Hi & Hr). exists i. split; [exact Hr |].
    apply elem_of_range3 in Hi as (_ & k & ->).
    apply Nat.even_spec. exists k. lia.
  - intros (i & Hr & Hev). exists i. split; [| exact Hr].
    apply elem_of_range3. split.
    + apply lookup_lt_Some in Hr. lia.
    + apply Nat.even_spec in Hev as (k & ->). exists k. lia.
Qed.

Lemma touched_odd (l : list loc) (r : loc) :
  touched (range3 1 (List.length l) 2) l r <-> at_parity l false r.
Proof.
  unfold touched, at_parity. split.
  - intros (i & Hi & Hr). exists i. split; [exact Hr |].
    apply elem_of_range3 in Hi as (_ & k & ->).
    rewrite <- Nat.negb_odd. apply negb_false_iff.
    apply Nat.odd_spec. exists k. lia.
  - intros (i & Hr & Hev). exists i. split; [| exact Hr].
    apply elem_of_range3.
    rewrite <- Nat.negb_odd in Hev. apply negb_false_iff in Hev.
    apply Nat.odd_spec in Hev as (k & ->). split.
    + apply lookup_lt_Some in Hr. lia.
    + exists k. lia.
Qed.

(** The two loops, one after the other, on a list of distinct objects. *)
Lemma retensioned_pair (T_l T_r : R) (st st1 st2 : state) :
  NoDup (spokes (self st)) ->
  retensioned (touched (range3 0 (List.length (spokes (self st))) 2)
                       (spokes (self st))) T_l st st1 ->
  retensioned (touched (range3 1 (List.length (spokes (self st1))) 2)
                       (spokes (self st1))) T_r st1 st2 ->
  tensioned T_l T_r st st2.
Proof.
  intros Hnd (Hs1 & Hn1 & Hw1 & H1) (Hs2 & Hn2 & Hw2 & H2).
  rewrite Hs1 in H2.
  repeat split; try congruence.
  - intros i r Hr.
    destruct (H1 r) as (H1in & H1out), (H2 r) as (H2in & H2out).
    destruct (Nat.even i) eqn:Hev.
    + rewrite H2out, H1in; [reflexivity | |].
      * apply touched_even. exists i. auto.
      * intros (j & Hj & Hpar)%touched_odd.
        assert (i = j) by (eapply NoDup_lookup; eassumption).
        congruence.
    + rewrite H2in, H1out; [reflexivity | |].
      * intros (j & Hj & Hpar)%touched_even.
        assert (i = j) by (eapply NoDup_lookup; eassumption).
        congruence.
      * apply touched_odd. exists i. auto.
  - intros r Hr.
    destruct (H1 r) as (_ & H1out), (H2 r) as (_ & H2out).
    rewrite H2out, H1out; [reflexivity | |].
    + intros (j & Hj & _)%touched_even.
      apply Hr. eapply list_elem_of_lookup_2, Hj.
    + intros (j & Hj & _)%touched_odd.
      apply Hr. eapply list_elem_of_lookup_2, Hj.
Qed.

Lemma tensioned_twice (T_l T_r : R) (st st1 st2 : state) :
  tensioned T_l T_r st st1 -> tensioned T_l T_r st1 st2 ->
  tensioned T_l T_r st st2.
Proof.
  intros (Hs1 & Hn1 & Hw1 & Hin1 & Hout1) (Hs2 & Hn2 & Hw2 & Hin2 & Hout2).
  rewrite Hs1 in Hin2, Hout2.
  repeat split; try congruence.
  - intros i r Hr. rewrite (Hin2 i r Hr), (Hin1 i r Hr). apply set_tension_idem.
  - intros r Hr. rewrite (Hout2 r Hr). apply Hout1, Hr.
Qed.

(** Running the two loops. *)
Lemma set_both_run (T_l T_r : R) (st : state) :
  NoDup (spokes (self st)) ->
  exists st1 st2,
    set_every_other 0 T_l st = (Ok tt, st1)
    /\ set_every_other 1 T_r st1 = (Ok tt, st2)
    /\ tensioned T_l T_r st st2.
Proof.
  intros Hnd.
  destruct (set_every_other_run 0 T_l st) as (st1 & Hrun1 & R1).
  destruct (set_every_other_run 1 T_r st1) as (st2 & Hrun2 & R2).
  exists st1, st2.
  split; [exact Hrun1 | split; [exact Hrun2 |]].
  eapply retensioned_pair; eassumption.
Qed.

Lemma tensioned_NoDup (T_l T_r : R) (st st' : state) :
  tensioned T_l T_r st st' ->
  NoDup (spokes (self st)) -> NoDup (spokes (self st')).
Proof. intros (-> & _). auto. Qed.

(** What a caller sees of [tensioned]. *)
Lemma tensioned_observe (T_l T_r : R) (st st' : state) :
  tensioned T_l T_r st st' ->
  spokes (self st') = spokes (self st)
  /\ (forall r, Spoke.n (store st' r) = Spoke.n (store st r))
  /\ (forall i r, spokes (self st') !! i = Some r ->
        Spoke.tension (store st' r) = if Nat.even i then T_l else T_r).
Proof.
  intros (Hs & _ & _ & Hin & Hout). rewrite Hs.
  split; [reflexivity |]. split.
  - intros r. destruct (decide (r ∈ spokes (self st))) as [Hr | Hr].
    + apply list_elem_of_lookup_1 in Hr as (i & Hi).
      rewrite (Hin i r Hi). reflexivity.
    + rewrite (Hout r Hr). reflexivity.
  - intros i r Hi. rewrite (Hin i r Hi). reflexivity.
Qed.

(** ** apply_tension *)

Lemma apply_tension_avg_run (T_avg : R) (T_left T_right : option R)
    (st : state) (r_l r_r : loc) (rest : list loc) :
  spokes (self st) = r_l :: r_r :: rest ->
  NoDup (spokes (self st)) ->
  balance_denominator (store st r_l) (store st r_r) <> 0 ->
  exists st',
    apply_tension (Some T_avg) T_left T_right st = (Ok tt, st')
    /\ tensioned
         (2 * T_avg * Rabs (item (Spoke.n (store st r_r)) 0)
          / balance_denominator (store st r_l) (store st r_r))
         (2 * T_avg * Rabs (item (Spoke.n (store st r_l)) 0)
          / balance_denominator (store st r_l) (store st r_r))
         st st'.
Proof.
  intros Hsp Hnd HD. unfold apply_tension.
  rewrite bind_run. unfold spokes_getitem at 1. rewrite Hsp. cbn [lookup list_lookup].
  rewrite bind_run. unfold spokes_getitem at 1. rewrite Hsp. cbn [lookup list_lookup].
  rewrite bind_run. cbn [deref]. rewrite bind_run. cbn [deref].
  rewrite bind_run. rewrite bind_run. unfold lift at 1.
  rewrite truediv_ok by exact HD.
  rewrite bind_run. unfold lift at 1.
  rewrite truediv_ok by exact HD.
  set (T_l := 2 * T_avg * _ / _). set (T_r := 2 * T_avg * _ / _).
  destruct (set_both_run T_l T_r st Hnd) as (st1 & st2 & H1 & H2 & Ht).
  rewrite bind_run, H1, bind_run, H2, ret_run.
  destruct (set_both_run T_l T_r st2) as (st3 & st4 & H3 & H4 & Ht').
  { eapply tensioned_NoDup; eassumption. }
  rewrite bind_run, H3, H4.
  exists st4. split; [reflexivity |].
  eapply tensioned_twice; eassumption.
Qed.

Lemma apply_tension_right_run (T : R) (T_left : option R)
    (st : state) (r_l r_r : loc) (rest : list loc) :
  spokes (self st) = r_l :: r_r :: rest ->
  NoDup (spokes (self st)) ->
  item (Spoke.n (store st r_l)) 0 <> 0 ->
  exists st',
    apply_tension None T_left (Some T) st = (Ok tt, st')
    /\ tensioned
         (Rabs (item (Spoke.n (store st r_r)) 0
                / item (Spoke.n (store st r_l)) 0) * T)
         T st st'.
Proof.
  intros Hsp Hnd Hn. unfold apply_tension.
  rewrite bind_run. unfold spokes_getitem at 1. rewrite Hsp. cbn [lookup list_lookup].
  rewrite bind_run. unfold spokes_getitem at 1. rewrite Hsp. cbn [lookup list_lookup].
  rewrite bind_run. cbn [deref]. rewrite bind_run. cbn [deref].
  rewrite bind_run. rewrite bind_run. unfold lift at 1.
  rewrite truediv_ok by exact Hn. rewrite ret_run.
  set (T_l := Rabs _ * T).
  destruct (set_both_run T_l T st Hnd) as (st1 & st2 & H1 & H2 & Ht).
  rewrite bind_run, H1, H2. eauto.
Qed.

Lemma apply_tension_left_run (T : R)
    (st : state) (r_l r_r : loc) (rest : list loc) :
  spokes (self st) = r_l :: r_r :: rest ->
  NoDup (spokes (self st)) ->
  item (Spoke.n (store st r_r)) 0 <> 0 ->
  exists st',
    apply_tension None (Some T) None st = (Ok tt, st')
    /\ tensioned
         T
         (Rabs (item (Spoke.n (store st r_l)) 0
                / item (Spoke.n (store st r_r)) 0) * T)
         st st'.
Proof.
  intros Hsp Hnd Hn. unfold apply_tension.
  rewrite bind_run. unfold spokes_getitem at 1. rewrite Hsp. cbn [lookup list_lookup].
  rewrite bind_run. unfold spokes_getitem at 1. rewrite Hsp. cbn [lookup list_lookup].
  rewrite bind_run. cbn [deref]. rewrite bind_run. cbn [deref].
  rewrite bind_run. rewrite bind_run. unfold lift at 1.
  rewrite truediv_ok by exact Hn. rewrite ret_run.
  set (T_r := Rabs _ * T).
  destruct (set_both_run T T_r st Hnd) as (st1 & st2 & H1 & H2 & Ht).
  rewrite bind_run, H1, H2. eauto.
Qed.

Lemma NoDup_wheel_2 : NoDup (spokes (self wheel_2)).
Proof.
  cbn. apply NoDup_cons. split; [| apply NoDup_singleton].
  rewrite list_elem_of_singleton. discriminate.
Qed.

Lemma balance_denominator_wheel_2 : balance_denominator spoke_l spoke_r = 1.
Proof.
  unfold balance_denominator, spoke_l, spoke_r, Spoke.init, Spoke.n, item.
  rabs.
Qed.

(** C3 (as stated) fails on a dished wheel: with spoke vectors
    (0.6, 0.8, 0) and (-0.8, 0.6, 0) and T_avg = 1 the tensions are 1.6
    and 1.2, and 1.6 * |0.6 * 0.6| differs from 1.2 * |-0.8 * 0.8|. *)
Lemma apply_tension_avg_counterexample :
  exists st',
    apply_tension (Some 1) None None wheel_2 = (Ok tt, st')
    /\ let n_l := Spoke.n (store st' 0%nat) in
       let n_r := Spoke.n (store st' 1%nat) in
       let T_l := Spoke.tension (store st' 0%nat) in
       let T_r := Spoke.tension (store st' 1%nat) in
       Rabs (item n_l 0 * item n_r 1) + Rabs (item n_r 0 * item n_l 1) <> 0
       /\ T_l * Rabs (item n_l 0 * item n_r 1)
          <> T_r * Rabs (item n_r 0 * item n_l 1).
Proof.
  destruct (apply_tension_avg_run 1 None None wheel_2 0%nat 1%nat [])
    as (st' & Hrun & Ht).
  { reflexivity. }
  { apply NoDup_wheel_2. }
  { cbn [wheel_2 store store_1]. rewrite balance_denominator_wheel_2. lra. }
  exists st'. split; [exact Hrun |].
  apply tensioned_observe in Ht as (Hs & Hn & HT).
  cbv zeta. rewrite !Hn.
  rewrite (HT 0%nat 0%nat), (HT 1%nat 1%nat) by (rewrite Hs; reflexivity).
  cbn [Nat.even wheel_2 store store_1].
  rewrite balance_denominator_wheel_2.
  unfold spoke_l, spoke_r, Spoke.init, Spoke.n, item.
  split; rabs.
Qed.

(** C3 (amended): on every wheel with at least two spokes, all distinct
    objects, whose denominator |n_l0*n_r1| + |n_r0*n_l1| is nonzero,
    [apply_tension(T_avg=T_avg)] returns, leaves one tension T_l on every
    even-indexed spoke and one tension T_r on every odd-indexed spoke,
    with the lateral balance T_l*|n_l0| = T_r*|n_r0| and the radial average
    (T_l*|n_l1| + T_r*|n_r1|)/2 = T_avg. *)
Theorem apply_tension_avg_balance (T_avg : R) (st : state)
    (r_l r_r : loc) (rest : list loc) :
  spokes (self st) = r_l :: r_r :: rest ->
  NoDup (spokes (self st)) ->
  let n_l := Spoke.n (store st r_l) in
  let n_r := Spoke.n (store st r_r) in
  Rabs (item n_l 0 * item n_r 1) + Rabs (item n_r 0 * item n_l 1) <> 0 ->
  exists (st' : state) (T_l T_r : R),
    apply_tension (Some T_avg) None None st = (Ok tt, st')
    /\ spokes (self st') = spokes (self st)
    /\ (forall r, Spoke.n (store st' r) = Spoke.n (store st r))
    /\ (forall i r, spokes (self st') !! i = Some r ->
          Spoke.tension (store st' r) = if Nat.even i then T_l else T_r)
    /\ T_l * Rabs (item n_l 0) = T_r * Rabs (item n_r 0)
    /\ (T_l * Rabs (item n_l 1) + T_r * Rabs (item n_r 1)) / 2 = T_avg.
Proof.
  intros Hsp Hnd n_l n_r HD.
  destruct (apply_tension_avg_run T_avg None None st r_l r_r rest Hsp Hnd HD)
    as (st' & Hrun & Ht).
  apply tensioned_observe in Ht as (Hs & Hn & HT).
  eexists st', _, _.
  split; [exact Hrun |]. split; [exact Hs |]. split; [exact Hn |].
  split; [exact HT |].
  unfold balance_denominator in *. fold n_l n_r in HD |- *.
  rewrite !Rabs_mult in *.
  split; field; exact HD.
Qed.

Lemma apply_tension_avg_balance_witness :
  exists (st' : state) (T_l T_r : R),
    apply_tension (Some 800) None None wheel_2 = (Ok tt, st')
    /\ spokes (self st') = [0%nat; 1%nat]
    /\ (forall r, Spoke.n (store st' r) = Spoke.n (store_1 r))
    /\ (forall i r, spokes (self st') !! i = Some r ->
          Spoke.tension (store st' r) = if Nat.even i then T_l else T_r)
    /\ T_l * Rabs 0.6 = T_r * Rabs (-0.8)
    /\ (T_l * Rabs 0.8 + T_r * Rabs 0.6) / 2 = 800.
Proof.
  apply (apply_tension_avg_balance 800 wheel_2 0%nat 1%nat []).
  - reflexivity.
  - cbn. apply NoDup_cons. split; [| apply NoDup_singleton].
    rewrite list_elem_of_singleton. discriminate.
  - unfold wheel_2, store, store_1, spoke_l, spoke_r, Spoke.init, Spoke.n, item.
    rabs.
Defined.

(** C4 (as stated) fails on the same dished wheel: with T_right = 1 the
    left tension is |-0.8 / 0.6| = 4/3, and 4/3 * |0.6 * 0.6| differs
    from 1 * |-0.8 * 0.8|. *)
Lemma apply_tension_right_counterexample :
  exists st',
    apply_tension None None (Some 1) wheel_2 = (Ok tt, st')
    /\ let n_l := Spoke.n (store st' 0%nat) in
       let n_r := Spoke.n (store st' 1%nat) in
       let T_l := Spoke.tension (store st' 0%nat) in
       let T_r := Spoke.tension (store st' 1%nat) in
       T_r = 1
       /\ T_l * Rabs (item n_l 0 * item n_r 1)
          <> T_r * Rabs (item n_r 0 * item n_l 1).
Proof.
  destruct (apply_tension_right_run 1 None wheel_2 0%nat 1%nat [])
    as (st' & Hrun & Ht).
  { reflexivity. }
  { apply NoDup_wheel_2. }
  { unfold wheel_2, store, store_1, spoke_l, Spoke.init, Spoke.n, item. lra. }
  exists st'. split; [exact Hrun |].
  apply tensioned_observe in Ht as (Hs & Hn & HT).
  cbv zeta. rewrite !Hn.
  rewrite (HT 0%nat 0%nat), (HT 1%nat 1%nat) by (rewrite Hs; reflexivity).
  cbn [Nat.even wheel_2 store store_1].
  unfold spoke_l, spoke_r, Spoke.init, Spoke.n, item.
  split; [reflexivity |]. rabs.
Qed.

(** C4 (amended): on every wheel with at least two spokes, all distinct
    objects, [apply_tension] called with only T_right (and n_l0 nonzero),
    or with only T_left (and n_r0 nonzero), returns, gives the given side
    its tension and the other side the tension that balances it
    laterally: T_l*|n_l0| = T_r*|n_r0|, where n_l = spokes[0].n and
    n_r = spokes[1].n. *)
Theorem apply_tension_one_side_balance (T : R) (st : state)
    (r_l r_r : loc) (rest : list loc) :
  spokes (self st) = r_l :: r_r :: rest ->
  NoDup (spokes (self st)) ->
  let n_l := Spoke.n (store st r_l) in
  let n_r := Spoke.n (store st r_r) in
  (item n_l 0 <> 0 ->
   exists (st' : state) (T_l : R),
     apply_tension None None (Some T) st = (Ok tt, st')
     /\ (forall i r, spokes (self st') !! i = Some r ->
           Spoke.tension (store st' r) = if Nat.even i then T_l else T)
     /\ T_l * Rabs (item n_l 0) = T * Rabs (item n_r 0))
  /\ (item n_r 0 <> 0 ->
      exists (st' : state) (T_r : R),
        apply_tension None (Some T) None st = (Ok tt, st')
        /\ (forall i r, spokes (self st') !! i = Some r ->
              Spoke.tension (store st' r) = if Nat.even i then T else T_r)
        /\ T * Rabs (item n_l 0) = T_r * Rabs (item n_r 0)).
Proof.
  intros Hsp Hnd n_l n_r. split; intros Hn.
  - destruct (apply_tension_right_run T None st r_l r_r rest Hsp Hnd Hn)
      as (st' & Hrun & Ht).
    apply tensioned_observe in Ht as (_ & _ & HT).
    eexists st', _. split; [exact Hrun |]. split; [exact HT |].
    fold n_l n_r. unfold Rdiv. rewrite Rabs_mult, Rabs_inv.
    field. apply Rabs_no_R0, Hn.
  - destruct (apply_tension_left_run T st r_l r_r rest Hsp Hnd Hn)
      as (st' & Hrun & Ht).
    apply tensioned_observe in Ht as (_ & _ & HT).
    eexists st', _. split; [exact Hrun |]. split; [exact HT |].
    fold n_l n_r. unfold Rdiv. rewrite Rabs_mult, Rabs_inv.
    field. apply Rabs_no_R0, Hn.
Qed.

Lemma apply_tension_one_side_balance_witness :
  (exists (st' : state) (T_l : R),
     apply_tension None None (Some 900) wheel_2 = (Ok tt, st')
     /\ (forall i r, spokes (self st') !! i = Some r ->
           Spoke.tension (store st' r) = if Nat.even i then T_l else 900)
     /\ T_l * Rabs 0.6 = 900 * Rabs (-0.8))
  /\ (exists (st' : state) (T_r : R),
        apply_tension None (Some 900) None wheel_2 = (Ok tt, st')
        /\ (forall i r, spokes (self st') !! i = Some r ->
              Spoke.tension (store st' r) = if Nat.even i then 900 else T_r)
        /\ 900 * Rabs 0.6 = T_r * Rabs (-0.8)).
Proof.
  destruct (apply_tension_one_side_balance 900 wheel_2 0%nat 1%nat [])
    as (Hright & Hleft).
  - reflexivity.
  - cbn. apply NoDup_cons. split; [| apply NoDup_singleton].
    rewrite list_elem_of_singleton. discriminate.
  - split.
    + apply Hright.
      unfold wheel_2, store, store_1, spoke_l, Spoke.init, Spoke.n, item. lra.
    + apply Hleft.
      unfold wheel_2, store, store_1, spoke_r, Spoke.init, Spoke.n, item. lra.
Defined.

(** One object in two slots: the second loop overwrites what the first
    wrote, so the even-indexed slot does not keep T_l.  This is why the
    statements above ask for distinct objects. *)
Lemma apply_tension_shared_object :
  let st := mkState (mk [0%nat; 1%nat; 1%nat; 0%nat]
                        (Some rim_1) (Some hub_1) ∅) store_1 2%nat [] in
  exists st',
    apply_tension None None (Some 1) st = (Ok tt, st')
    /\ Spoke.tension (store st' 0%nat) = 1
    /\ Spoke.tension (store st' 0%nat)
       <> Rabs (item (Spoke.n spoke_r) 0 / item (Spoke.n spoke_l) 0) * 1.
Proof.
  cbv zeta. unfold apply_tension.
  rewrite bind_run. unfold spokes_getitem at 1. cbn [self spokes lookup list_lookup].
  rewrite bind_run. unfold spokes_getitem at 1. cbn [self spokes lookup list_lookup].
  rewrite bind_run. cbn [deref]. rewrite bind_run. cbn [deref].
  rewrite bind_run. rewrite bind_run. unfold lift at 1. cbn [store store_1].
  rewrite truediv_ok
    by (unfold spoke_l, Spoke.init, Spoke.n, item; lra).
  rewrite ret_run.
  eexists. split; [reflexivity |].
  match goal with
  | |- ?T0 = 1 /\ _ => assert (H : T0 = 1) by reflexivity
  end.
  split; [exact H | rewrite H].
  unfold spoke_r, spoke_l, Spoke.init, Spoke.n, item. rabs.
Qed.

(** ** calc_rot_inertia *)

Lemma any_None_true (l : list (option R)) :
  None ∈ l -> any_None l = true.
Proof.
  intros H. unfold any_None. apply existsb_exists.
  exists None. split; [apply list_elem_of_In, H | reflexivity].
Qed.

(** C8 (as the code behaves): when the rim density is set and the density
    of some spoke is not, [calc_rot_inertia] warns and returns the rim's
    inertia alone; the spokes whose density is known contribute
    nothing. *)
Theorem calc_rot_inertia_drops_known_spokes (st : state) (rm : Rim.instance)
    (d : R) (r : loc) :
  rim (self st) = Some rm ->
  Rim.density rm = Some d ->
  r ∈ spokes (self st) ->
  Spoke.density (store st r) = None ->
  calc_rot_inertia st
  = (Ok (d * 2 * PI * Rim.radius rm * Rim.area rm * Rim.radius rm ^ 2 + 0),
     warned "Some spoke densities are not specified." st).
Proof.
  intros Hrim Hd Hr Hnone. unfold calc_rot_inertia.
  rewrite bind_run. unfold self_rim at 1. rewrite Hrim.
  unfold Rim.calc_rot_inertia, Rim.calc_mass. rewrite Hd.
  cbn [mbind option_bind]. rewrite bind_run, ret_run.
  rewrite bind_run. cbn [get].
  rewrite any_None_true.
  - reflexivity.
  - apply list_elem_of_fmap. exists r. split; [| exact Hr].
    unfold Spoke.calc_rot_inertia. rewrite Hnone. reflexivity.
Qed.

Lemma calc_rot_inertia_drops_known_spokes_witness :
  calc_rot_inertia wheel_2
  = (Ok (2700 * 2 * PI * 0.3 * 1e-4 * 0.3 ^ 2 + 0),
     warned "Some spoke densities are not specified." wheel_2).
Proof.
  apply (calc_rot_inertia_drops_known_spokes wheel_2 rim_1 2700 1%nat).
  - reflexivity.
  - reflexivity.
  - cbn. apply list_elem_of_lookup. exists 1%nat. reflexivity.
  - reflexivity.
Defined.

(** On the example wheel, whose first spoke has a density and whose second
    has none, the value returned is strictly below the total of the rim
    and the known spoke. *)
Lemma calc_rot_inertia_below_known_total :
  exists x,
    fst (calc_rot_inertia wheel_2) = Ok x
    /\ Spoke.density spoke_l = Some 8000
    /\ Spoke.density spoke_r = None
    /\ x < rot_inertia_of_known rim_1 wheel_2.
Proof.
  eexists. split.
  - rewrite (calc_rot_inertia_drops_known_spokes wheel_2 rim_1 2700 1%nat);
      [reflexivity | reflexivity | reflexivity | | reflexivity].
    cbn. apply list_elem_of_lookup. exists 1%nat. reflexivity.
  - split; [reflexivity |]. split; [reflexivity |].
    pose proof PI_RGT_0 as Hpi.
    unfold rot_inertia_of_known, known_spoke_inertia, wheel_2, store_1, rim_1,
      spoke_l, spoke_r, Rim.general, Spoke.init, Rim.calc_rot_inertia,
      Rim.calc_mass, Spoke.calc_rot_inertia, Spoke.calc_mass.
    cbn [self spokes store fmap list_fmap np_sum foldr Rim.density Rim.radius
         Rim.area Spoke.density Spoke.length Spoke.diameter Spoke.n Spoke.b
         mbind option_bind default item vadd vscale].
    unfold Datatypes.id. lra.
Qed.

(** * Further properties of the code *)

(** ** Rim.C_channel *)

(** X1: [Rim.C_channel] returns a Rim exactly when 6h + w and the area
    (w + t) t + 2 (h - t) t are both nonzero, and the Rim is then tagged
    "C" with that area; when either is zero it raises the division
    error. *)
Theorem C_channel_returns_iff (radius w h t young_mod shear_mod : R)
    (density : option R) :
  let area := (w + t) * t + 2 * (h - t) * t in
  (6 * h + w <> 0 -> area <> 0 ->
   exists r, Rim.C_channel radius w h t young_mod shear_mod density = Ok r
             /\ Rim.sec_type r = "C" /\ Rim.area r = area
             /\ Rim.radius r = radius /\ Rim.density r = density)
  /\ (6 * h + w = 0 \/ area = 0 ->
      Rim.C_channel radius w h t young_mod shear_mod density
      = Raise ZeroDivisionError).
Proof.
  cbv zeta. split.
  - intros H6 Ha. unfold Rim.C_channel.
    rewrite (truediv_ok _ (6 * h + w)) by exact H6.
    cbn [mbind result_bind].
    rewrite (truediv_ok _ ((w + t) * t + 2 * (h - t) * t)) by exact Ha.
    cbn [mbind result_bind].
    rewrite (truediv_ok _ (6 * h + w)) by exact H6.
    cbn [mbind result_bind].
    eexists. split; [reflexivity |]. repeat split.
  - intros H. unfold Rim.C_channel, truediv.
    destruct (Req_dec_T (6 * h + w) 0) as [H6 | H6]; [reflexivity |].
    cbn [mbind result_bind].
    destruct (Req_dec_T ((w + t) * t + 2 * (h - t) * t) 0) as [Ha | Ha];
      [reflexivity |].
    destruct H; contradiction.
Qed.

Lemma C_channel_returns_iff_witness :
  (exists r, Rim.C_channel 0.3 0.02 0.015 0.002 70e9 26e9 None = Ok r
             /\ Rim.sec_type r = "C"
             /\ Rim.area r = (0.02 + 0.002) * 0.002 + 2 * (0.015 - 0.002) * 0.002
             /\ Rim.radius r = 0.3 /\ Rim.density r = None)
  /\ Rim.C_channel 0.3 (-6) 1 1 70e9 26e9 None = Raise ZeroDivisionError.
Proof.
  split.
  - apply (C_channel_returns_iff 0.3 0.02 0.015 0.002 70e9 26e9 None); lra.
  - apply (C_channel_returns_iff 0.3 (-6) 1 1 70e9 26e9 None). left. lra.
Defined.

(** X2: for a channel of positive width w and wall thickness t no larger
    than its height h, [Rim.C_channel] returns a Rim all of whose section
    constants (area, J_tor, I_warp, I_rad, I_lat) are strictly positive. *)
Theorem C_channel_positive_section (radius w h t young_mod shear_mod : R)
    (density : option R) :
  0 < w -> 0 < t -> t <= h ->
  exists r, Rim.C_channel radius w h t young_mod shear_mod density = Ok r
            /\ 0 < Rim.area r /\ 0 < Rim.J_tor r /\ 0 < Rim.I_warp r
            /\ 0 < Rim.I_rad r /\ 0 < Rim.I_lat r.
Proof.
  intros Hw Ht Hth.
  assert (Ha : 0 < (w + t) * t + 2 * (h - t) * t) by nra.
  assert (H6 : 0 < 6 * h + w) by lra.
  unfold Rim.C_channel.
  rewrite (truediv_ok _ (6 * h + w)) by lra.
  cbn [mbind result_bind].
  rewrite (truediv_ok _ ((w + t) * t + 2 * (h - t) * t)) by lra.
  cbn [mbind result_bind].
  rewrite (truediv_ok _ (6 * h + w)) by lra.
  cbn [mbind result_bind].
  eexists. split; [reflexivity |].
  cbn [Rim.area Rim.J_tor Rim.I_warp Rim.I_rad Rim.I_lat].
  assert (Ht3 : 0 < t ^ 3) by (apply pow_lt; exact Ht).
  assert (Hw3 : 0 < w ^ 3) by (apply pow_lt; exact Hw).
  assert (Hh3 : 0 < h ^ 3) by (apply pow_lt; lra).
  assert (Hw2 : 0 < w ^ 2) by (apply pow_lt; exact Hw).
  split; [exact Ha |].
  split; [| split; [| split]].
  - apply Rmult_lt_0_compat; [| lra].
    apply Rmult_lt_0_compat; [lra | exact Ht3].
  - apply Rdiv_lt_0_compat; [| exact H6].
    apply Rmult_lt_0_compat; [| lra].
    apply Rdiv_lt_0_compat; [| lra].
    apply Rmult_lt_0_compat; [| exact Hw2].
    apply Rmult_lt_0_compat; [exact Ht | exact Hh3].
  - set (y_c := (h - t) * t * h / _).
    assert (H1 : 0 < (w + t) * t ^ 3 / 12).
    { apply Rdiv_lt_0_compat; [| lra].
      apply Rmult_lt_0_compat; [lra | exact Ht3]. }
    assert (H2 : 0 <= (w + t) * t * y_c ^ 2).
    { apply Rmult_le_pos; [nra | apply pow2_ge_0]. }
    assert (H3 : 0 <= t * (h - t) ^ 3 / 12).
    { apply Rmult_le_pos; [| lra].
      apply Rmult_le_pos; [lra |]. apply pow_le. lra. }
    assert (H4 : 0 <= (h - t) * t * (h / 2 - y_c) ^ 2).
    { apply Rmult_le_pos; [nra | apply pow2_ge_0]. }
    lra.
  - assert (H1 : 0 < t * w ^ 3 / 12).
    { apply Rdiv_lt_0_compat; [| lra].
      apply Rmult_lt_0_compat; [exact Ht | exact Hw3]. }
    assert (H2 : 0 <= (h - t) * t ^ 3 / 12).
    { apply Rmult_le_pos; [| lra]. apply Rmult_le_pos; lra. }
    assert (H3 : 0 <= (h - t) * t * (w / 2) ^ 2).
    { apply Rmult_le_pos; [nra | apply pow2_ge_0]. }
    lra.
Qed.

Lemma C_channel_positive_section_witness :
  exists r, Rim.C_channel 0.3 0.02 0.015 0.002 70e9 26e9 (Some 2700) = Ok r
            /\ 0 < Rim.area r /\ 0 < Rim.J_tor r /\ 0 < Rim.I_warp r
            /\ 0 < Rim.I_rad r /\ 0 < Rim.I_lat r.
Proof. apply C_channel_positive_section; lra. Defined.

(** ** Hub.__init__, continued *)



(** X4: the diameters are never validated.  Whether the constructor
    raises, with which exception, and the widths it stores do not depend
    on the three diameter arguments; and a per-side diameter that is not a
    float (an int, or absent) is replaced by the shared diameter, which
    may itself be absent. *)
Theorem hub_init_diameters_unchecked
    (d d_nds d_ds d' d_nds' d_ds' width width_nds width_ds offset : pyval) :
  same_widths (Hub.init d d_nds d_ds width width_nds width_ds offset)
              (Hub.init d' d_nds' d_ds' width width_nds width_ds offset)
  /\ forall h, Hub.init d d_nds d_ds width width_nds width_ds offset = Ok h ->
       Hub.diameter_nds h = (if isinstance_float d_nds then d_nds else d)
       /\ Hub.diameter_ds h = (if isinstance_float d_ds then d_ds else d).
Proof.
  split.
  - destruct width, offset, width_nds, width_ds; cbn; auto.
  - intros h H.
    destruct width, offset, width_nds, width_ds; cbn in H; try discriminate;
      injection H as <-; cbn; auto.
Qed.

Lemma hub_init_diameters_unchecked_witness :
  exists h,
    Hub.init PyNone (PyInt 40) (PyFloat 0.06)
             (PyFloat 0.05) PyNone PyNone PyNone = Ok h
    /\ Hub.diameter_nds h = PyNone
    /\ Hub.diameter_ds h = PyFloat 0.06.
Proof.
  eexists. split; [reflexivity |].
  destruct (hub_init_diameters_unchecked PyNone (PyInt 40) (PyFloat 0.06)
              PyNone PyNone PyNone (PyFloat 0.05) PyNone PyNone PyNone)
    as (_ & H).
  apply (H _ eq_refl).
Defined.

(** ** Spoke, continued *)

(** X5: whatever the spoke (its length may even be negative), a matrix
    returned by [calc_k], with or without tension, or by [calc_k_geom] is
    symmetric. *)
Theorem calc_k_always_symmetric (s : Spoke.instance) (with_tension : bool)
    (k : mat4) :
  Spoke.calc_k s with_tension = Ok k \/ Spoke.calc_k_geom s = Ok k ->
  symmetric4 k.
Proof.
  intros H.
  destruct (Req_dec_T (Spoke.length s) 0) as [HL | HL].
  - destruct H as [H | H].
    + rewrite calc_k_zero_length in H by exact HL. discriminate.
    + rewrite calc_k_geom_zero_length in H by exact HL. discriminate.
  - destruct H as [H | H].
    + rewrite calc_k_eq in H by exact HL. injection H as <-.
      apply k_of_symmetric.
    + destruct (calc_k_geom_eq s HL) as (k' & Hk' & Heq).
      rewrite Hk' in H. injection H as <-.
      intros i j Hi Hj. rewrite !Heq. apply k_of_symmetric; assumption.
Qed.

Lemma calc_k_always_symmetric_witness :
  exists k,
    Spoke.calc_k (Spoke.init 0 (1, 0, 0) (0, 0, 0) (-1) 0.002 210e9 None)
                 false = Ok k
    /\ symmetric4 k.
Proof.
  eexists. split.
  - apply calc_k_eq. cbn. lra.
  - eapply (calc_k_always_symmetric _ false). left.
    apply calc_k_eq. cbn. lra.
Defined.



(** X7: a spoke as its constructor leaves it carries no tension, so
    [calc_k] gives the same matrix with and without the tension term. *)
Theorem calc_k_new_spoke_tension_free (theta : R) (n b : vec3)
    (length diameter young_mod : R) (density : option R) :
  agree (Spoke.calc_k (Spoke.init theta n b length diameter young_mod density)
                      true)
        (Spoke.calc_k (Spoke.init theta n b length diameter young_mod density)
                      false).
Proof.
  set (s := Spoke.init _ _ _ _ _ _ _).
  destruct (Req_dec_T (Spoke.length s) 0) as [HL | HL].
  - rewrite !calc_k_zero_length by exact HL. reflexivity.
  - rewrite !calc_k_eq by exact HL. cbn.
    intros i j. destruct n as [[n0 n1] n2], b as [[b0 b1] b2].
    index4 i; index4 j; cbn; unfold Rdiv, zeros44; ring.
Qed.

(** X8: [calc_tension_change] reads four numbers from [d].  Fewer than
    three raise [IndexError]; exactly three stand for a rotation phi of 0;
    whatever follows the fourth is ignored. *)
Theorem calc_tension_change_displacement (s : Spoke.instance) (a : R) :
  (forall d, (List.length d < 3)%nat ->
     Spoke.calc_tension_change s d a = Raise IndexError)
  /\ (forall u v w,
        Spoke.calc_tension_change s [u; v; w] a
        = Spoke.calc_tension_change s [u; v; w; 0] a)
  /\ (forall u v w phi rest,
        Spoke.calc_tension_change s (u :: v :: w :: phi :: rest) a
        = Spoke.calc_tension_change s [u; v; w; phi] a).
Proof.
  split; [| split].
  - intros d Hd.
    destruct d as [| u [| v [| w d]]]; cbn in Hd; try lia; reflexivity.
  - reflexivity.
  - reflexivity.
Qed.

Lemma calc_tension_change_displacement_witness :
  Spoke.calc_tension_change spoke_l [0.001; 0.002] 0 = Raise IndexError.
Proof.
  apply (calc_tension_change_displacement spoke_l 0). cbn. lia.
Defined.



(** ** The aggregations of BicycleWheel *)

Lemma for_loop_state {A S : Type} (l : list A) (body : A -> S -> M S)
    (acc : S) (st : state) :
  (forall x a st0, (body x a st0).2 = st0) ->
  (for_loop l body acc st).2 = st.
Proof.
  intros Hbody. revert acc.
  induction l as [| x l IH]; intros acc; cbn [for_loop].
  - reflexivity.
  - rewrite bind_run. specialize (Hbody x acc st).
    destruct (body x acc st) as [[acc' | e] st1]; cbn in Hbody; subst st1.
    + apply IH.
    + reflexivity.
Qed.

Lemma bind_state {A B : Type} (m : M A) (f : A -> M B) (st : state) :
  (m st).2 = st -> (forall a, (f a st).2 = st) -> ((m ≫= f) st).2 = st.
Proof.
  intros Hm Hf. rewrite bind_run.
  destruct (m st) as [[a | e] st1]; cbn in Hm; subst st1; [apply Hf | reflexivity].
Qed.

Lemma lift_state {A : Type} (r : result A) (st : state) : (lift r st).2 = st.
Proof. reflexivity. Qed.

Lemma deref_state (r : loc) (st : state) : (deref r st).2 = st.
Proof. reflexivity. Qed.

Lemma self_rim_state (attr : string) (st : state) : (self_rim attr st).2 = st.
Proof. unfold self_rim. destruct (rim (self st)); reflexivity. Qed.

Lemma spokes_getitem_state (i : nat) (st : state) : (spokes_getitem i st).2 = st.
Proof. unfold spokes_getitem. destruct (spokes (self st) !! i); reflexivity. Qed.

Lemma calc_kbar_state (with_tension : bool) (st : state) :
  (calc_kbar with_tension st).2 = st.
Proof.
  unfold calc_kbar. rewrite bind_run. cbn [get].
  apply for_loop_state. intros r k_bar st0.
  repeat first
    [ apply bind_state; [| intros ?]
    | apply lift_state
    | apply deref_state
    | apply self_rim_state
    | apply spokes_getitem_state
    | reflexivity ].
Qed.

Lemma calc_kbar_geom_state (st : state) : (calc_kbar_geom st).2 = st.
Proof.
  unfold calc_kbar_geom.
  apply bind_state; [apply spokes_getitem_state | intros r_0].
  apply bind_state; [apply spokes_getitem_state | intros r_1].
  apply bind_state; [apply deref_state | intros s_0].
  apply bind_state; [apply deref_state | intros s_1].
  rewrite bind_run. cbn [get].
  apply for_loop_state. intros r k_bar st0.
  repeat first
    [ apply bind_state; [| intros ?]
    | apply lift_state
    | apply deref_state
    | apply self_rim_state
    | apply spokes_getitem_state
    | reflexivity ].
Qed.

Lemma same_objects_refl (st : state) : same_objects st st.
Proof. repeat split. Qed.

Lemma same_objects_warned (msg : string) (st : state) :
  same_objects st (warned msg st).
Proof. repeat split. Qed.

Lemma calc_mass_objects (st : state) : same_objects st (calc_mass st).2.
Proof.
  unfold calc_mass. rewrite bind_run. unfold self_rim at 1.
  destruct (rim (self st)) as [rm |]; [| apply same_objects_refl].
  destruct (Rim.calc_mass rm) as [m |];
    repeat (rewrite bind_run; cbn [warn mret M_ret get]);
    match goal with
    | |- context [any_None ?l] => destruct (any_None l)
    end; cbn; repeat split.
Qed.

Lemma calc_rot_inertia_objects (st : state) :
  same_objects st (calc_rot_inertia st).2.
Proof.
  unfold calc_rot_inertia. rewrite bind_run. unfold self_rim at 1.
  destruct (rim (self st)) as [rm |]; [| apply same_objects_refl].
  destruct (Rim.calc_rot_inertia rm) as [I_rim |];
    repeat (rewrite bind_run; cbn [warn mret M_ret get]);
    match goal with
    | |- context [any_None ?l] => destruct (any_None l)
    end;
    try (cbn; repeat split; fail);
    match goal with
    | |- context [for_loop ?l ?b 0 ?s] =>
        assert (H : (for_loop l b 0 s).2 = s)
          by (apply for_loop_state; intros [i r] acc st1;
              repeat first
                [ apply bind_state; [| intros ?]
                | apply lift_state
                | apply deref_state
                | apply self_rim_state
                | apply spokes_getitem_state
                | reflexivity ]);
        destruct (for_loop l b 0 s) as [[x | e] st1]
    end; cbn in H; subst st1; cbn; repeat split.
Qed.

(** X10: the four aggregations are read-only.  [calc_kbar] and
    [calc_kbar_geom] leave the whole state as it was, whether they return
    or raise; [calc_mass] and [calc_rot_inertia] can only add warnings:
    the wheel and every Spoke object are untouched. *)
Theorem aggregations_read_only (st : state) :
  (forall with_tension, (calc_kbar with_tension st).2 = st)
  /\ (calc_kbar_geom st).2 = st
  /\ same_objects st (calc_mass st).2
  /\ same_objects st (calc_rot_inertia st).2.
Proof.
  split; [intros f; apply calc_kbar_state |].
  split; [apply calc_kbar_geom_state |].
  split; [apply calc_mass_objects | apply calc_rot_inertia_objects].
Qed.

(** X11: what a wheel without a rim or without spokes gives.  Without a
    rim, [calc_mass] and [calc_rot_inertia] raise [AttributeError] whatever
    the spokes; without spokes, [calc_kbar] returns the zero matrix and
    never looks at the rim. *)
Theorem aggregations_bare_wheel (st : state) :
  (rim (self st) = None ->
     calc_mass st = (Raise (AttributeError "calc_mass"), st)
     /\ calc_rot_inertia st = (Raise (AttributeError "calc_rot_inertia"), st))
  /\ (spokes (self st) = [] ->
      forall with_tension,
        calc_kbar with_tension st = (Ok zeros44, st)).
Proof.
  split.
  - intros Hrim. unfold calc_mass, calc_rot_inertia.
    rewrite !bind_run. unfold self_rim. rewrite Hrim. split; reflexivity.
  - intros Hsp f. unfold calc_kbar. rewrite bind_run. cbn [get].
    rewrite Hsp. reflexivity.
Qed.

Lemma aggregations_bare_wheel_witness :
  let st := mkState BicycleWheel.init store_1 0%nat [] in
  calc_mass st = (Raise (AttributeError "calc_mass"), st)
  /\ calc_rot_inertia st = (Raise (AttributeError "calc_rot_inertia"), st)
  /\ calc_kbar true st = (Ok zeros44, st).
Proof.
  cbv zeta.
  destruct (aggregations_bare_wheel
              (mkState BicycleWheel.init store_1 0%nat [])) as (Hrim & Hsp).
  destruct (Hrim eq_refl) as (Hm & Hi).
  split; [exact Hm |]. split; [exact Hi |]. apply Hsp. reflexivity.
Defined.

Lemma div44_ok (k : mat4) (c : R) :
  c <> 0 -> div44 k c = Ok (fun i j => k i j / c).
Proof. intros Hc. unfold div44. destruct (Req_dec_T c 0); [contradiction | reflexivity]. Qed.

Lemma symmetric4_zeros : symmetric4 zeros44.
Proof. intros i j _ _. reflexivity. Qed.

Lemma psd4_zeros : psd4 zeros44.
Proof. intros x. unfold quad4, sum4, zeros44. lra. Qed.

Lemma symmetric4_add (a b : mat4) :
  symmetric4 a -> symmetric4 b -> symmetric4 (add44 a b).
Proof. intros Ha Hb i j Hi Hj. unfold add44. rewrite (Ha i j), (Hb i j); auto. Qed.

Lemma psd4_add (a b : mat4) : psd4 a -> psd4 b -> psd4 (add44 a b).
Proof.
  intros Ha Hb x. specialize (Ha x). specialize (Hb x).
  replace (quad4 (add44 a b) x) with (quad4 a x + quad4 b x)
    by (unfold quad4, sum4, add44; ring).
  lra.
Qed.

Lemma symmetric4_scale_div (a : mat4) (w c : R) :
  symmetric4 a -> symmetric4 (fun i j => scale44 w a i j / c).
Proof. intros Ha i j Hi Hj. unfold scale44. rewrite (Ha i j); auto. Qed.

Lemma psd4_scale_div (a : mat4) (w c : R) :
  psd4 a -> 0 <= w -> 0 < c -> psd4 (fun i j => scale44 w a i j / c).
Proof.
  intros Ha Hw Hc x. specialize (Ha x).
  replace (quad4 (fun i j => scale44 w a i j / c) x) with (w * quad4 a x / c)
    by (unfold quad4, sum4, scale44, Rdiv; ring).
  apply Rmult_le_pos; [apply Rmult_le_pos; assumption |].
  apply Rlt_le, Rinv_0_lt_compat, Hc.
Qed.

Lemma symmetric4_div (a : mat4) (c : R) :
  symmetric4 a -> symmetric4 (fun i j => a i j / c).
Proof. intros Ha i j Hi Hj. rewrite (Ha i j); auto. Qed.

Lemma psd4_div (a : mat4) (c : R) :
  psd4 a -> 0 < c -> psd4 (fun i j => a i j / c).
Proof.
  intros Ha Hc x. specialize (Ha x).
  replace (quad4 (fun i j => a i j / c) x) with (quad4 a x / c)
    by (unfold quad4, sum4, Rdiv; ring).
  apply Rmult_le_pos; [assumption |].
  apply Rlt_le, Rinv_0_lt_compat, Hc.
Qed.

Lemma calc_k_well_formed (s : Spoke.instance) (with_tension : bool) :
  well_formed s ->
  exists k, Spoke.calc_k s with_tension = Ok k /\ symmetric4 k /\ psd4 k.
Proof.
  intros (HL & Hn & HEA & HT).
  eexists. split; [apply calc_k_eq; lra |].
  split; [apply k_of_symmetric |].
  apply k_of_psd; [assumption | |].
  - apply Rmult_le_pos; [assumption |].
    apply Rlt_le, Rinv_0_lt_compat, HL.
  - destruct with_tension; [| lra].
    apply Rmult_le_pos; [assumption |].
    apply Rlt_le, Rinv_0_lt_compat, HL.
Qed.

Lemma calc_kbar_loop (with_tension : bool) (rm : Rim.instance) (st : state)
    (l : list loc) (acc : mat4) :
  rim (self st) = Some rm -> 0 < Rim.radius rm ->
  (forall r, r ∈ l -> well_formed (store st r)) ->
  symmetric4 acc -> psd4 acc ->
  exists k,
    for_loop l (fun r k_bar =>
      s ← deref r;
      k ← lift (Spoke.calc_k s with_tension);
      rm ← self_rim "radius";
      k ← lift (div44 k (2 * PI * Rim.radius rm));
      mret (add44 k_bar k)) acc st = (Ok k, st)
    /\ symmetric4 k /\ psd4 k.
Proof.
  intros Hrim Hrad. revert acc.
  pose proof PI_RGT_0 as Hpi.
  assert (Hc : 0 < 2 * PI * Rim.radius rm) by nra.
  induction l as [| r l IH]; intros acc Hwf Hsym Hpsd; cbn [for_loop].
  - exists acc. auto.
  - destruct (calc_k_well_formed (store st r) with_tension)
      as (k & Hk & Hksym & Hkpsd).
    { apply Hwf. left. }
    rewrite bind_run, bind_run. cbn [deref].
    rewrite bind_run. unfold lift at 1. rewrite Hk.
    rewrite bind_run. unfold self_rim at 1. rewrite Hrim.
    rewrite bind_run. unfold lift at 1. rewrite div44_ok by lra.
    rewrite ret_run.
    apply IH.
    + intros r' Hr'. apply Hwf. right. exact Hr'.
    + apply symmetric4_add; [exact Hsym | apply symmetric4_div, Hksym].
    + apply psd4_add; [exact Hpsd | apply psd4_div; assumption].
Qed.


Lemma well_formed_spoke_l : well_formed (Spoke.set_tension spoke_l 800).
Proof.
  pose proof PI_RGT_0 as Hpi.
  unfold well_formed, unit3, spoke_l, Spoke.init.
  cbn [Spoke.set_tension Spoke.length Spoke.n Spoke.EA Spoke.tension
       Spoke.theta Spoke.b Spoke.diameter Spoke.young_mod Spoke.density vdot].
  repeat split; lra.
Qed.


Lemma calc_k_geom_well_formed (s : Spoke.instance) :
  0 < Spoke.length s -> unit3 (Spoke.n s) ->
  exists k, Spoke.calc_k_geom s = Ok k /\ symmetric4 k /\ psd4 k.
Proof.
  intros HL Hn.
  destruct (calc_k_geom_eq s) as (k & Hk & Heq); [lra |].
  exists k. split; [exact Hk |]. split.
  - intros i j Hi Hj. rewrite !Heq. apply k_of_symmetric; assumption.
  - intros x.
    replace (quad4 k x)
      with (quad4 (k_of 0 (1 / Spoke.length s) (Spoke.n s) (Spoke.b s)) x)
      by (unfold quad4, sum4; rewrite !Heq; reflexivity).
    apply k_of_psd; [exact Hn | lra |].
    apply Rlt_le, Rdiv_lt_0_compat; lra.
Qed.

Lemma calc_kbar_geom_loop (T_d : R) (rm : Rim.instance) (st : state)
    (l : list loc) (acc : mat4) :
  rim (self st) = Some rm -> 0 < Rim.radius rm -> 0 < T_d ->
  (forall r, r ∈ l ->
     0 < Spoke.length (store st r) /\ unit3 (Spoke.n (store st r))) ->
  symmetric4 acc -> psd4 acc ->
  exists k,
    for_loop l (fun r k_bar =>
      s ← deref r;
      w ← lift (truediv (Rabs (item (Spoke.n s) 0)) T_d);
      k ← lift (Spoke.calc_k_geom s);
      rm ← self_rim "radius";
      k ← lift (div44 (scale44 w k) (PI * Rim.radius rm));
      mret (add44 k_bar k)) acc st = (Ok k, st)
    /\ symmetric4 k /\ psd4 k.
Proof.
  intros Hrim Hrad HT. revert acc.
  pose proof PI_RGT_0 as Hpi.
  assert (Hc : 0 < PI * Rim.radius rm) by nra.
  induction l as [| r l IH]; intros acc Hwf Hsym Hpsd; cbn [for_loop].
  - exists acc. auto.
  - destruct (Hwf r) as (HL & Hn); [left |].
    destruct (calc_k_geom_well_formed (store st r) HL Hn)
      as (k & Hk & Hksym & Hkpsd).
    rewrite bind_run, bind_run. cbn [deref].
    rewrite bind_run. unfold lift at 1. rewrite truediv_ok by lra.
    rewrite bind_run. unfold lift at 1. rewrite Hk.
    rewrite bind_run. unfold self_rim at 1. rewrite Hrim.
    rewrite bind_run. unfold lift at 1. rewrite div44_ok by lra.
    rewrite ret_run.
    apply IH.
    + intros r' Hr'. apply Hwf. right. exact Hr'.
    + apply symmetric4_add; [exact Hsym | apply symmetric4_scale_div, Hksym].
    + apply psd4_add; [exact Hpsd |].
      apply psd4_scale_div; [exact Hkpsd | | exact Hc].
      apply Rmult_le_pos; [apply Rabs_pos |].
      apply Rlt_le, Rinv_0_lt_compat, HT.
Qed.



Lemma any_None_fmap {A : Type} (f : A -> option R) (g : A -> option R)
    (l : list A) :
  (forall x, f x = None <-> g x = None) ->
  any_None (f <$> l) = any_None (g <$> l).
Proof.
  intros H. induction l as [| x l IH]; [reflexivity |].
  cbn. unfold any_None in IH. rewrite IH.
  specialize (H x). destruct (f x), (g x); try reflexivity.
  - destruct H as [_ H]. discriminate H. reflexivity.
  - destruct H as [H _]. discriminate H. reflexivity.
Qed.

Lemma spoke_mass_None (s : Spoke.instance) :
  Spoke.calc_mass s = None <-> Spoke.density s = None.
Proof. unfold Spoke.calc_mass. destruct (Spoke.density s); split; congruence. Qed.

Lemma spoke_inertia_None (s : Spoke.instance) :
  Spoke.calc_rot_inertia s = None <-> Spoke.density s = None.
Proof.
  unfold Spoke.calc_rot_inertia, Spoke.calc_mass.
  destruct (Spoke.density s); cbn; split; congruence.
Qed.

Lemma with_warnings_nil (st : state) : with_warnings [] st = st.
Proof. destruct st. unfold with_warnings. cbn. rewrite app_nil_r. reflexivity. Qed.

Lemma with_warnings_app (ws1 ws2 : list string) (st : state) :
  with_warnings ws2 (with_warnings ws1 st) = with_warnings (ws1 ++ ws2) st.
Proof. unfold with_warnings. cbn. rewrite app_assoc. reflexivity. Qed.

Lemma warn_run (msg : string) (st : state) :
  warn msg st = (Ok tt, with_warnings [msg] st).
Proof. reflexivity. Qed.

(** X14: [calc_mass] loses no known mass.  On a wheel with a rim it
    returns the rim's mass (0 if its density is not set) plus the mass of
    every spoke whose density is set, and it warns once for a rim without
    density and once if any spoke has none; nothing else changes. *)
Theorem calc_mass_sums_known (st : state) (rm : Rim.instance) :
  rim (self st) = Some rm ->
  calc_mass st
  = (Ok (default 0 (Rim.calc_mass rm)
         + np_sum ((fun r => default 0 (Spoke.calc_mass (store st r)))
                   <$> spokes (self st))),
     with_warnings (rim_warning rm ++ spoke_warning st) st).
Proof.
  intros Hrim. unfold calc_mass.
  rewrite bind_run. unfold self_rim at 1. rewrite Hrim.
  unfold rim_warning, spoke_warning, Rim.calc_mass.
  rewrite <- (any_None_fmap (fun r => Spoke.calc_mass (store st r)))
    by (intros r; apply spoke_mass_None).
  destruct (Rim.density rm) as [d |].
  - rewrite bind_run, ret_run, bind_run. cbn [get].
    destruct (any_None _).
    + rewrite bind_run, bind_run, warn_run, !ret_run.
      rewrite <- list_fmap_compose. reflexivity.
    + rewrite bind_run, !ret_run, with_warnings_nil.
      rewrite <- list_fmap_compose. reflexivity.
  - rewrite bind_run, bind_run, warn_run, ret_run, bind_run. cbn [get].
    change (store (with_warnings ["Rim density is not specified."] st))
      with (store st).
    change (self (with_warnings ["Rim density is not specified."] st))
      with (self st).
    destruct (any_None _).
    + rewrite bind_run, bind_run, warn_run, !ret_run, with_warnings_app.
      rewrite <- list_fmap_compose. reflexivity.
    + rewrite bind_run, !ret_run. rewrite app_nil_r.
      rewrite <- list_fmap_compose. reflexivity.
Qed.

Lemma calc_mass_sums_known_witness :
  calc_mass wheel_2
  = (Ok (default 0 (Rim.calc_mass rim_1)
         + np_sum [default 0 (Spoke.calc_mass spoke_l);
                   default 0 (Spoke.calc_mass spoke_r)]),
     with_warnings ["Some spoke densities are not specified."] wheel_2).
Proof. apply (calc_mass_sums_known wheel_2 rim_1). reflexivity. Defined.

Lemma known_spoke_inertia_loop (rm : Rim.instance) (st : state)
    (I_spk : list (option R)) (ps : list (nat * loc)) (acc : R) :
  rim (self st) = Some rm ->
  (forall i r, (i, r) ∈ ps ->
     I_spk !! i = Some (Spoke.calc_rot_inertia (store st r))
     /\ is_Some (Spoke.density (store st r))) ->
  exists x,
    for_loop ps
      (fun '(i, r) I_spokes =>
         s ← deref r;
         rm0 ← self_rim "radius";
         let rim_pt := (0, - Rim.radius rm0 + item (Spoke.b s) 1, 0) in
         let hub_pt := vadd rim_pt (vscale (Spoke.length s) (Spoke.n s)) in
         let mid_pt := vscale 0.5 (vadd rim_pt hub_pt) in
         m ← lift (match Spoke.calc_mass s with
                   | Some m => Ok m
                   | None => Raise TypeError
                   end);
         let mr2_spk := m * (item mid_pt 0 ^ 2 + item mid_pt 1 ^ 2) in
         I_i ← lift (match I_spk !! i with
                     | Some (Some I_i) => Ok I_i
                     | Some None => Raise TypeError
                     | None => Raise IndexError
                     end);
         mret (I_spokes + I_i + mr2_spk)) acc st = (Ok x, st)
    /\ x = acc + np_sum ((fun p => known_spoke_inertia rm (store st p.2)) <$> ps).
Proof.
  intros Hrim. revert acc.
  induction ps as [| [i r] ps IH]; intros acc Hps; cbn [for_loop].
  - exists acc. split; [reflexivity |]. cbn. lra.
  - destruct (Hps i r) as (HI & (d & Hd)); [left |].
    rewrite bind_run, bind_run. cbn [deref].
    rewrite bind_run. unfold self_rim at 1. rewrite Hrim.
    cbv zeta.
    assert (Hm : Spoke.calc_mass (store st r)
                 = Some (d * Spoke.length (store st r) * PI / 4
                         * Spoke.diameter (store st r) ^ 2)).
    { unfold Spoke.calc_mass. rewrite Hd. reflexivity. }
    assert (HI' : Spoke.calc_rot_inertia (store st r)
                  = Some (d * Spoke.length (store st r) * PI / 4
                          * Spoke.diameter (store st r) ^ 2
                          * (Spoke.length (store st r)
                             * item (Spoke.n (store st r)) 1) ^ 2 / 12)).
    { unfold Spoke.calc_rot_inertia. rewrite Hd, Hm. reflexivity. }
    rewrite bind_run. unfold lift at 1. rewrite Hm.
    rewrite bind_run. unfold lift at 1. rewrite HI, HI'.
    rewrite ret_run.
    destruct (IH (acc
                  + d * Spoke.length (store st r) * PI / 4
                    * Spoke.diameter (store st r) ^ 2
                    * (Spoke.length (store st r)
                       * item (Spoke.n (store st r)) 1) ^ 2 / 12
                  + d * Spoke.length (store st r) * PI / 4
                    * Spoke.diameter (store st r) ^ 2
                    * (item (vscale 0.5
                         (vadd (0, - Rim.radius rm + item (Spoke.b (store st r)) 1, 0)
                            (vadd (0, - Rim.radius rm
                                      + item (Spoke.b (store st r)) 1, 0)
                               (vscale (Spoke.length (store st r))
                                       (Spoke.n (store st r)))))) 0 ^ 2
                       + item (vscale 0.5
                           (vadd (0, - Rim.radius rm
                                     + item (Spoke.b (store st r)) 1, 0)
                              (vadd (0, - Rim.radius rm
                                        + item (Spoke.b (store st r)) 1, 0)
                                 (vscale (Spoke.length (store st r))
                                         (Spoke.n (store st r)))))) 1 ^ 2)))
      as (x & Hx & Heq).
    { intros i' r' H'. apply Hps. right. exact H'. }
    exists x. split; [exact Hx |].
    rewrite Heq. cbn [fmap list_fmap np_sum foldr snd].
    unfold known_spoke_inertia at 2. rewrite HI', Hm. cbv zeta.
    change (foldr Rplus 0 ?l) with (np_sum l). lra.
Qed.

(** X15: when every spoke has a density, [calc_rot_inertia] returns the
    full sum: the rim's inertia (0, with a warning, if its density is not
    set) plus, for each spoke, its slender-rod inertia and its mass times
    the squared distance of its midpoint from the axle; no spoke warning
    is issued and nothing else changes. *)
Theorem calc_rot_inertia_all_known (st : state) (rm : Rim.instance) :
  rim (self st) = Some rm ->
  (forall r, r ∈ spokes (self st) -> is_Some (Spoke.density (store st r))) ->
  calc_rot_inertia st
  = (Ok (rot_inertia_of_known rm st), with_warnings (rim_warning rm) st).
Proof.
  intros Hrim Hall. unfold calc_rot_inertia.
  rewrite bind_run. unfold self_rim at 1. rewrite Hrim.
  assert (Hnone : forall st0, store st0 = store st -> self st0 = self st ->
            any_None ((fun r => Spoke.calc_rot_inertia (store st0 r))
                      <$> spokes (self st0)) = false).
  { intros st0 -> ->. apply not_true_is_false. intros H.
    apply existsb_exists in H as ([x |] & Hin & Hx); [discriminate |].
    apply list_elem_of_In, list_elem_of_fmap in Hin as (r & Hr & Hin).
    symmetry in Hr. apply spoke_inertia_None in Hr.
    destruct (Hall r Hin) as (d & Hd). congruence. }
  assert (Hloop : forall st0, store st0 = store st -> self st0 = self st ->
            exists x,
              (st1 ← get;
               let I_spk := (fun r => Spoke.calc_rot_inertia (store st1 r))
                            <$> spokes (self st1) in
               for_loop (imap (fun i r => (i, r)) (spokes (self st1)))
                 (fun '(i, r) I_spokes =>
                    s ← deref r;
                    rm0 ← self_rim "radius";
                    let rim_pt := (0, - Rim.radius rm0 + item (Spoke.b s) 1, 0) in
                    let hub_pt := vadd rim_pt
                                    (vscale (Spoke.length s) (Spoke.n s)) in
                    let mid_pt := vscale 0.5 (vadd rim_pt hub_pt) in
                    m ← lift (match Spoke.calc_mass s with
                              | Some m => Ok m
                              | None => Raise TypeError
                              end);
                    let mr2_spk := m * (item mid_pt 0 ^ 2 + item mid_pt 1 ^ 2) in
                    I_i ← lift (match I_spk !! i with
                                | Some (Some I_i) => Ok I_i
                                | Some None => Raise TypeError
                                | None => Raise IndexError
                                end);
                    mret (I_spokes + I_i + mr2_spk)) 0) st0 = (Ok x, st0)
              /\ x = np_sum ((fun r => known_spoke_inertia rm (store st r))
                             <$> spokes (self st))).
  { intros st0 Hst Hse. rewrite bind_run. cbn [get]. cbv zeta.
    destruct (known_spoke_inertia_loop rm st0
                ((fun r => Spoke.calc_rot_inertia (store st0 r))
                 <$> spokes (self st0))
                (imap (fun i r => (i, r)) (spokes (self st0))) 0)
      as (x & Hx & Heq).
    - rewrite Hse. exact Hrim.
    - intros i r Hir.
      apply elem_of_lookup_imap in Hir as (i' & r' & Heq & Hl).
      injection Heq as -> ->.
      split.
      + rewrite list_lookup_fmap, Hl. reflexivity.
      + rewrite Hst. apply Hall. rewrite <- Hse.
        eapply list_elem_of_lookup_2, Hl.
    - exists x. split; [exact Hx |].
      rewrite Heq, Rplus_0_l, Hst, Hse. f_equal.
      rewrite fmap_imap.
      change (fun n : nat => (fun p : nat * loc => known_spoke_inertia rm (store st p.2))
                             ∘ (fun r : loc => (n, r)))
        with (fun (_ : nat) (r : loc) => known_spoke_inertia rm (store st r)).
      apply (imap_const (fun r => known_spoke_inertia rm (store st r))). }
  unfold rot_inertia_of_known, rim_warning, Rim.calc_rot_inertia, Rim.calc_mass.
  destruct (Rim.density rm) as [d |].
  - cbn [mbind option_bind default from_option]. unfold Datatypes.id.
    rewrite bind_run, ret_run, bind_run. cbn [get].
    rewrite (Hnone st) by reflexivity.
    destruct (Hloop st eq_refl eq_refl) as (x & Hx & Heq).
    rewrite bind_run in Hx. cbn [get] in Hx. cbv zeta in Hx.
    rewrite bind_run, Hx, ret_run, with_warnings_nil, Heq. reflexivity.
  - cbn [default from_option].
    rewrite bind_run, bind_run, warn_run, ret_run, bind_run. cbn [get].
    rewrite (Hnone (with_warnings ["Rim density is not specified."] st))
      by reflexivity.
    destruct (Hloop (with_warnings ["Rim density is not specified."] st)
                eq_refl eq_refl) as (x & Hx & Heq).
    rewrite bind_run in Hx. cbn [get] in Hx. cbv zeta in Hx.
    rewrite bind_run, Hx, ret_run, Heq. reflexivity.
Qed.

Lemma calc_rot_inertia_all_known_witness :
  calc_rot_inertia wheel_1
  = (Ok (rot_inertia_of_known rim_1 wheel_1), with_warnings [] wheel_1).
Proof.
  apply (calc_rot_inertia_all_known wheel_1 rim_1).
  - reflexivity.
  - intros r Hr. cbn in Hr. apply list_elem_of_singleton in Hr as ->.
    cbn. eauto.
Defined.

(** ** Lacing and tensioning, continued *)

(** X16: on a wheel with no attribute beyond those [__init__] sets,
    lacing raises [AttributeError] for every spoke count, also zero or
    negative: [lace_cross_side] reads [self.hub_width_ds] before its loop
    and leaves the state as it was, and [lace_cross] and [lace_radial]
    have emptied the spoke list by then. *)
Theorem lacing_plain_wheel_raises (st : state)
    (n_spokes n_cross side direction : Z) (offset diameter young_mod : R)
    (density : option R) (offset_lat offset_rad : R) :
  extra (self st) = ∅ ->
  lace_cross_side n_spokes n_cross side direction offset diameter young_mod
                  density offset_lat offset_rad st
  = (Raise (AttributeError "hub_width_ds"), st)
  /\ lace_cross n_spokes n_cross diameter young_mod density
                offset_lat offset_rad st
     = (Raise (AttributeError "hub_width_ds"), cleared st)
  /\ lace_radial n_spokes diameter young_mod density offset_lat offset_rad st
     = (Raise (AttributeError "hub_width_ds"), cleared st).
Proof.
  intros Hex.
  assert (Hside : forall n c sd dr off st0, extra (self st0) = ∅ ->
            lace_cross_side n c sd dr off diameter young_mod density
                            offset_lat offset_rad st0
            = (Raise (AttributeError "hub_width_ds"), st0)).
  { intros n c sd dr off st0 H0. unfold lace_cross_side.
    rewrite bind_run. unfold getattr at 1. rewrite H0. reflexivity. }
  assert (Hcross : forall c,
            lace_cross n_spokes c diameter young_mod density
                       offset_lat offset_rad st
            = (Raise (AttributeError "hub_width_ds"), cleared st)).
  { intros c. unfold lace_cross.
    rewrite bind_run, set_spokes_nil, bind_run, Hside; [reflexivity |].
    exact Hex. }
  split; [apply Hside, Hex |].
  split; [apply Hcross |].
  unfold lace_radial. apply Hcross.
Qed.

Lemma lacing_plain_wheel_raises_witness :
  lace_cross_side 0 3 1 1 0 0.002 210e9 None 0 0 wheel_2
  = (Raise (AttributeError "hub_width_ds"), wheel_2)
  /\ lace_cross 0 3 0.002 210e9 None 0 0 wheel_2
     = (Raise (AttributeError "hub_width_ds"), cleared wheel_2)
  /\ lace_radial 0 0.002 210e9 None 0 0 wheel_2
     = (Raise (AttributeError "hub_width_ds"), cleared wheel_2).
Proof.
  apply (lacing_plain_wheel_raises wheel_2 0 3 1 1 0 0.002 210e9 None 0 0).
  reflexivity.
Defined.

Lemma retensioned_frame (idx : list nat) (T : R) (st st' : state) :
  retensioned (touched idx (spokes (self st))) T st st' ->
  only_tension_changed st st'.
Proof.
  intros (Hs & Hn & Hw & Hr).
  split; [exact Hs |]. split; [exact Hn |]. split; [exact Hw |].
  split.
  - intros r. destruct (Hr r) as (Hin & Hout).
    destruct (classic_touched idx (spokes (self st)) r) as [Ht | Ht].
    + rewrite Hin by exact Ht. reflexivity.
    + rewrite Hout by exact Ht. reflexivity.
  - intros r Hnot. destruct (Hr r) as (_ & Hout). apply Hout.
    intros (i & _ & Hi). apply Hnot. eapply list_elem_of_lookup_2, Hi.
Qed.

Lemma only_tension_changed_trans (st1 st2 st3 : state) :
  only_tension_changed st1 st2 -> only_tension_changed st2 st3 ->
  only_tension_changed st1 st3.
Proof.
  intros (Hs1 & Hn1 & Hw1 & Hf1 & Ho1) (Hs2 & Hn2 & Hw2 & Hf2 & Ho2).
  rewrite Hs1 in Ho2.
  split; [congruence |]. split; [congruence |]. split; [congruence |].
  split.
  - intros r. rewrite Hf2. apply Hf1.
  - intros r Hr. rewrite Ho2 by exact Hr. apply Ho1, Hr.
Qed.

Lemma set_both_frame (T_l T_r : R) (st : state) :
  exists st1 st2,
    set_every_other 0 T_l st = (Ok tt, st1)
    /\ set_every_other 1 T_r st1 = (Ok tt, st2)
    /\ only_tension_changed st st2.
Proof.
  destruct (set_every_other_run 0 T_l st) as (st1 & Hrun1 & R1).
  destruct (set_every_other_run 1 T_r st1) as (st2 & Hrun2 & R2).
  exists st1, st2.
  split; [exact Hrun1 | split; [exact Hrun2 |]].
  eapply only_tension_changed_trans; eapply retensioned_frame; eassumption.
Qed.

(** X17: a call of [apply_tension] that returns has changed nothing but
    tensions: the wheel and its list of spokes, the warnings, and every
    field other than [tension] of every Spoke object are as before, and a
    Spoke that is not in the wheel is untouched.  This holds also when
    one object sits in several slots. *)
Theorem apply_tension_changes_only_tension (T_avg T_left T_right : option R)
    (st st' : state) :
  apply_tension T_avg T_left T_right st = (Ok tt, st') ->
  only_tension_changed st st'.
Proof.
  unfold apply_tension. intros H.
  rewrite bind_run in H. unfold spokes_getitem at 1 in H.
  destruct (spokes (self st) !! 0%nat) as [r_l |]; [| discriminate].
  rewrite bind_run in H. unfold spokes_getitem at 1 in H.
  destruct (spokes (self st) !! 1%nat) as [r_r |]; [| discriminate].
  rewrite bind_run in H. cbn [deref] in H.
  rewrite bind_run in H. cbn [deref] in H.
  rewrite bind_run in H.
  destruct T_avg as [T |]; [| destruct T_right as [T |];
                               [| destruct T_left as [T |]]].
  - rewrite bind_run in H. unfold lift at 1 in H.
    destruct (truediv _ _) as [T_l | e] in H; [| discriminate].
    rewrite bind_run in H. unfold lift at 1 in H.
    destruct (truediv _ _) as [T_r | e] in H; [| discriminate].
    destruct (set_both_frame T_l T_r st) as (st1 & st2 & H1 & H2 & F1).
    rewrite bind_run, H1, bind_run, H2, ret_run in H.
    destruct (set_both_frame T_l T_r st2) as (st3 & st4 & H3 & H4 & F2).
    rewrite bind_run, H3, H4 in H. injection H as <-.
    eapply only_tension_changed_trans; eassumption.
  - rewrite bind_run in H. unfold lift at 1 in H.
    destruct (truediv _ _) as [q | e] in H; [| discriminate].
    rewrite ret_run in H.
    destruct (set_both_frame (Rabs q * T) T st) as (st1 & st2 & H1 & H2 & F1).
    rewrite bind_run, H1, H2 in H. injection H as <-. exact F1.
  - rewrite bind_run in H. unfold lift at 1 in H.
    destruct (truediv _ _) as [q | e] in H; [| discriminate].
    rewrite ret_run in H.
    destruct (set_both_frame T (Rabs q * T) st) as (st1 & st2 & H1 & H2 & F1).
    rewrite bind_run, H1, H2 in H. injection H as <-. exact F1.
  - discriminate.
Qed.

Lemma apply_tension_changes_only_tension_witness :
  exists st',
    apply_tension (Some 800) None None wheel_2 = (Ok tt, st')
    /\ only_tension_changed wheel_2 st'.
Proof.
  destruct (apply_tension_avg_run 800 None None wheel_2 0%nat 1%nat [])
    as (st' & Hrun & _).
  - reflexivity.
  - apply NoDup_wheel_2.
  - cbn [wheel_2 store store_1]. rewrite balance_denominator_wheel_2. lra.
  - exists st'. split; [exact Hrun |].
    apply (apply_tension_changes_only_tension (Some 800) None None wheel_2 st').
    exact Hrun.
Defined.



(** ** reorder_spokes *)

Lemma argsort_insert_perm (keys : list R) (i : nat) (a : list nat) :
  argsort_insert keys i a ≡ₚ i :: a.
Proof.
  induction a as [| j a IH]; cbn [argsort_insert]; [reflexivity |].
  destruct (Rlt_dec (nth j keys 0) (nth i keys 0)); [| reflexivity].
  rewrite IH. apply Permutation_swap.
Qed.

Lemma argsort_fold_perm (keys : list R) (l : list nat) :
  foldr (argsort_insert keys) [] l ≡ₚ l.
Proof.
  induction l as [| i l IH]; cbn [foldr]; [reflexivity |].
  rewrite argsort_insert_perm, IH. reflexivity.
Qed.

Lemma argsort_insert_sorted (keys : list R) (i : nat) (a : list nat) :
  StronglySorted (le_key keys) a ->
  StronglySorted (le_key keys) (argsort_insert keys i a).
Proof.
  induction a as [| j a IH]; intros Hs; cbn [argsort_insert].
  - repeat constructor.
  - apply StronglySorted_inv in Hs as (Hs & Hj).
    destruct (Rlt_dec (nth j keys 0) (nth i keys 0)) as [Hlt | Hge].
    + constructor; [apply IH, Hs |].
      rewrite argsort_insert_perm. constructor; [| exact Hj].
      unfold le_key. lra.
    + assert (Hij : le_key keys i j) by (unfold le_key; lra).
      constructor; [constructor; assumption |].
      constructor; [exact Hij |].
      eapply Forall_impl; [exact Hj |].
      intros x Hx. unfold le_key in *. lra.
Qed.

Lemma argsort_fold_sorted (keys : list R) (l : list nat) :
  StronglySorted (le_key keys) (foldr (argsort_insert keys) [] l).
Proof.
  induction l as [| i l IH]; cbn [foldr]; [constructor |].
  apply argsort_insert_sorted, IH.
Qed.

Lemma StronglySorted_lookup_lt {A : Type} (R : A -> A -> Prop) (l : list A) :
  StronglySorted R l ->
  forall i j x y, (i < j)%nat -> l !! i = Some x -> l !! j = Some y -> R x y.
Proof.
  induction 1 as [| a l Hs IH Ha]; intros i j x y Hij Hi Hj.
  - rewrite lookup_nil in Hi. discriminate.
  - destruct j as [| j]; [lia |]. cbn in Hj.
    destruct i as [| i]; cbn in Hi.
    + injection Hi as <-.
      eapply Forall_forall in Ha; [exact Ha |].
      eapply list_elem_of_lookup_2, Hj.
    + apply (IH i j); [lia | assumption | assumption].
Qed.

Lemma fmap_nth_seq (l : list loc) :
  (fun i => nth i l 0%nat) <$> seq 0 (List.length l) = l.
Proof.
  apply list_eq. intros i. rewrite list_lookup_fmap.
  destruct (lt_dec i (List.length l)) as [Hi | Hi].
  - rewrite lookup_seq_lt by exact Hi. cbn.
    destruct (lookup_lt_is_Some_2 l i Hi) as (x & Hx).
    rewrite nth_lookup, Hx. reflexivity.
  - rewrite (lookup_ge_None_2 l) by lia.
    rewrite lookup_ge_None_2; [reflexivity |]. rewrite length_seq. lia.
Qed.

Lemma comprehension_getitem (a : list nat) (st : state) :
  (forall i, i ∈ a -> (i < List.length (spokes (self st)))%nat) ->
  comprehension a spokes_getitem st
  = (Ok ((fun i => nth i (spokes (self st)) 0%nat) <$> a), st).
Proof.
  induction a as [| i a IH]; intros Ha; cbn [comprehension].
  - reflexivity.
  - destruct (lookup_lt_is_Some_2 (spokes (self st)) i) as (r & Hr).
    { apply Ha. left. }
    rewrite bind_run. unfold spokes_getitem at 1. rewrite Hr.
    rewrite bind_run, IH by (intros j Hj; apply Ha; right; exact Hj).
    rewrite ret_run. cbn [fmap list_fmap].
    rewrite nth_lookup, Hr. reflexivity.
Qed.

(** X19: [reorder_spokes] never raises; the spoke list it leaves is a
    rearrangement of the one it found (no spoke is lost or doubled) and is
    in ascending order of theta, and nothing else has changed: not the
    Spoke objects, nor the rim, the hub or the warnings. *)
Theorem reorder_spokes_sorts (st : state) :
  exists st',
    reorder_spokes st = (Ok tt, st')
    /\ spokes (self st') ≡ₚ spokes (self st)
    /\ sorted_by_theta st' (spokes (self st'))
    /\ store st' = store st
    /\ cleared st' = cleared st.
Proof.
  unfold reorder_spokes. rewrite bind_run. cbn [get]. cbv zeta.
  set (keys := (fun r => Spoke.theta (store st r)) <$> spokes (self st)).
  assert (Hlen : List.length keys = List.length (spokes (self st)))
    by (unfold keys; apply length_fmap).
  assert (Hperm : argsort keys ≡ₚ seq 0 (List.length (spokes (self st)))).
  { unfold argsort. rewrite Hlen. apply argsort_fold_perm. }
  assert (Hidx : forall i, i ∈ argsort keys ->
                   (i < List.length (spokes (self st)))%nat).
  { intros i Hi. rewrite Hperm in Hi. apply elem_of_seq in Hi. lia. }
  rewrite bind_run, comprehension_getitem by exact Hidx.
  eexists. split; [reflexivity |].
  cbn [self spokes store set_spokes].
  split; [| split; [| split; reflexivity]].
  - rewrite Hperm. rewrite fmap_nth_seq. reflexivity.
  - unfold sorted_by_theta. cbn [self spokes store].
    intros p q r_p r_q Hpq Hp Hq.
    rewrite list_lookup_fmap in Hp, Hq.
    destruct (argsort keys !! p) as [i_p |] eqn:Hip; [| discriminate].
    destruct (argsort keys !! q) as [i_q |] eqn:Hiq; [| discriminate].
    cbn in Hp, Hq. injection Hp as <-. injection Hq as <-.
    assert (Hkey : forall i, (i < List.length (spokes (self st)))%nat ->
              nth i keys 0
              = Spoke.theta (store st (nth i (spokes (self st)) 0%nat))).
    { intros i Hi.
      destruct (lookup_lt_is_Some_2 (spokes (self st)) i Hi) as (r & Hr).
      rewrite !nth_lookup, Hr. unfold keys.
      rewrite list_lookup_fmap, Hr. reflexivity. }
    rewrite <- !Hkey
      by (apply Hidx; eapply list_elem_of_lookup_2; eassumption).
    destruct (decide (p = q)) as [-> | Hne].
    + rewrite Hip in Hiq. injection Hiq as <-. lra.
    + apply (StronglySorted_lookup_lt (le_key keys) (argsort keys)
               (argsort_fold_sorted keys _) p q); [lia | assumption | assumption].
Qed.
